(** * Adaptive feedback-aware Dijkstra: a shallow embedding of
      [adaptive_dijkstra.py] and the properties of its specification.

    Conventions of the embedding.
    - A Python [float] is a real number ([R]); the value [float('inf')] of the
      cost table is the extra constructor [Infinity] of [cost].  Rounding, NaN
      and overflow are outside the model.
    - A Python [int] is a [Z]; a [dict] is a [gmap]; a [set] is a [gset].
    - A call that may raise returns an [outcome]; the [while] loops run on
      fuel, and [OutOfFuel] is the outcome of a loop that used all of it.
    - [self.stats] is threaded explicitly; the console narration ([print]) and
      the rewrite of the history file ([_save_history]) are left out. *)

From Stdlib Require Import Reals Lra Lia ZArith.
From stdpp Require Import gmap strings pretty sorting.

(** ** Python outcomes *)

Inductive exn : Set := KeyError | ZeroDivisionError.

Inductive outcome (A : Type) : Type :=
| Ok (a : A)
| Raise (e : exn)
| OutOfFuel.
Arguments Ok {A} a.
Arguments Raise {A} e.
Arguments OutOfFuel {A}.

#[global] Instance outcome_ret : MRet outcome := @Ok.
#[global] Instance outcome_bind : MBind outcome := λ A B f m,
  match m with
  | Ok a => f a
  | Raise e => Raise e
  | OutOfFuel => OutOfFuel
  end.

(** [d[k]] on a dictionary: [KeyError] when the key is missing. *)
Definition getitem `{Countable K} {V} (d : gmap K V) (k : K) : outcome V :=
  match d !! k with
  | Some v => Ok v
  | None => Raise KeyError
  end.

(** ** Numbers *)

#[global] Instance R_eq_decision : EqDecision R := Req_dec_T.
#[global] Instance Rlt_decision : RelDecision Rlt := Rlt_dec.
#[global] Instance Rgt_decision : RelDecision Rgt := Rgt_dec.
#[global] Instance Rge_decision : RelDecision Rge := Rge_dec.

(** True division [x / y]. *)
Definition py_div (x y : R) : outcome R :=
  if decide (y = 0%R) then Raise ZeroDivisionError else Ok (x / y)%R.

(** Entries of the cost table: a finite float or [float('inf')]. *)
Inductive cost : Set :=
| Finite (r : R)
| Infinity.

Definition cost_add (c : cost) (w : R) : cost :=
  match c with
  | Finite r => Finite (r + w)
  | Infinity => Infinity
  end.

Definition cost_ltb (a b : cost) : bool :=
  match a, b with
  | Finite x, Finite y => bool_decide (x < y)%R
  | Finite _, Infinity => true
  | Infinity, _ => false
  end.

Definition cost_eqb (a b : cost) : bool :=
  match a, b with
  | Finite x, Finite y => bool_decide (x = y)
  | Infinity, Infinity => true
  | _, _ => false
  end.

(** ** Data model *)

(** Edge metadata: a dictionary read with [.get(key, 1.0)]. *)
Record Metadata : Set := {
  md_traffic_factor : option R;
  md_quality : option R
}.

(** Modelled from the spec: the graph collaborator [graph.road_graph.RoadGraph]
    is not among the sources.  Its interface (section 6) is the set of node
    identifiers ([graph.nodes.keys()]) and the finite sequence
    [get_neighbors(node)] of [(neighbor, base_distance, metadata)]. *)
Record RoadGraph : Type := {
  nodes : gset Z;
  get_neighbors : Z → list (Z * R * Metadata)
}.

Record EdgeHistoryRecord : Set := {
  usage_count : Z;
  average_delay : R;
  failure_rate : R;
  total_delay : R;
  total_failures : Z
}.

Record Stats : Set := {
  nodes_explored : Z;
  edges_examined : Z;
  path_length : Z;
  history_influenced : Z;
  explored_edges : list (Z * Z)
}.

(** [f"{from_node}-{to_node}"] *)
Definition edge_key (from_node to_node : Z) : string :=
  pretty from_node +:+ "-" +:+ pretty to_node.

(** Class constants of [AdaptiveDijkstra]. *)
Definition HISTORICAL_WEIGHT : R := 0.3.
Definition DECAY_FACTOR : R := 0.95.
Definition MIN_SAMPLES : Z := 3.

Definition incr_history_influenced (s : Stats) : Stats :=
  {| nodes_explored := nodes_explored s;
     edges_examined := edges_examined s;
     path_length := path_length s;
     history_influenced := history_influenced s + 1;
     explored_edges := explored_edges s |}.

(** ** The adaptive edge cost *)

Section Cost.
Variable vehicle_type : string.
Variable edge_history : gmap string EdgeHistoryRecord.

Definition vehicle_penalty (road_quality : R) : R :=
  if decide (road_quality >= 0.85)%R then
    (if decide (vehicle_type = "boda") then 1.0 else 1.0)%R
  else if decide (road_quality >= 0.75)%R then
    (if decide (vehicle_type = "boda") then 1.1 else 1.3)%R
  else
    (if decide (vehicle_type = "boda") then 1.3 else 1.8)%R.

(** The static part of the cost, [base_distance * traffic_factor *
    vehicle_penalty]. *)
Definition static_cost (base_distance : R) (metadata : Metadata) : R :=
  let traffic_factor := default 1.0%R (md_traffic_factor metadata) in
  let road_quality := default 1.0%R (md_quality metadata) in
  (base_distance * traffic_factor * vehicle_penalty road_quality)%R.

Definition historical_penalty (history : EdgeHistoryRecord) : R :=
  let avg_delay := average_delay history in
  let failure_rate := failure_rate history in
  let confidence := Rmin (IZR (usage_count history) / 10.0) 1.0 in
  (1.0 + HISTORICAL_WEIGHT * confidence * (avg_delay + failure_rate * 2.0))%R.

(** [_calculate_adaptive_cost]: the cost and the caller's statistics. *)
Definition calculate_adaptive_cost (stats : Stats) (from_node to_node : Z)
    (base_distance : R) (metadata : Metadata) : R * Stats :=
  let base_cost := static_cost base_distance metadata in
  let edge_key := edge_key from_node to_node in
  match edge_history !! edge_key with
  | Some history =>
      if decide (usage_count history >= MIN_SAMPLES)%Z then
        ((base_cost * historical_penalty history)%R,
         incr_history_influenced stats)
      else (base_cost, stats)
  | None => (base_cost, stats)
  end.
End Cost.

(** ** The priority queue

    [heapq] on tuples [(cost, node_id)]: the frontier is a bag of entries and
    [heappop] removes a least one for the lexicographic order of tuples.  That
    order is total, so two least entries are equal and the bag left behind
    does not depend on which one the heap gives up. *)

Definition entry : Set := cost * Z.

Definition entry_ltb (a b : entry) : bool :=
  if cost_eqb a.1 b.1 then bool_decide (a.2 < b.2)%Z else cost_ltb a.1 b.1.

(** The least entry of [x :: l] and the other entries. *)
Fixpoint extract_min (x : entry) (l : list entry) : entry * list entry :=
  match l with
  | [] => (x, [])
  | y :: l' =>
      let '(m, rest) := extract_min y l' in
      if entry_ltb m x then (m, x :: rest) else (x, y :: l')
  end.

Definition heappop (pq : list entry) : option (entry * list entry) :=
  match pq with
  | [] => None
  | x :: l => Some (extract_min x l)
  end.

Definition heappush (pq : list entry) (e : entry) : list entry := e :: pq.

(** ** The search *)

Record SearchState : Type := {
  costs : gmap Z cost;
  parents : gmap Z (option Z);
  pq : list entry;
  visited : gset Z;
  stats : Stats
}.

Definition fresh_stats : Stats :=
  {| nodes_explored := 0; edges_examined := 0; path_length := 0;
     history_influenced := 0; explored_edges := [] |}.

Definition incr_nodes_explored (s : Stats) : Stats :=
  {| nodes_explored := nodes_explored s + 1;
     edges_examined := edges_examined s;
     path_length := path_length s;
     history_influenced := history_influenced s;
     explored_edges := explored_edges s |}.

Definition examine_edge (s : Stats) (e : Z * Z) : Stats :=
  {| nodes_explored := nodes_explored s;
     edges_examined := edges_examined s + 1;
     path_length := path_length s;
     history_influenced := history_influenced s;
     explored_edges := explored_edges s ++ [e] |}.

Definition set_path_length (s : Stats) (n : Z) : Stats :=
  {| nodes_explored := nodes_explored s;
     edges_examined := edges_examined s;
     path_length := n;
     history_influenced := history_influenced s;
     explored_edges := explored_edges s |}.

Definition set_stats (st : SearchState) (s : Stats) : SearchState :=
  {| costs := costs st; parents := parents st; pq := pq st;
     visited := visited st; stats := s |}.

Definition set_pq (st : SearchState) (q : list entry) : SearchState :=
  {| costs := costs st; parents := parents st; pq := q;
     visited := visited st; stats := stats st |}.

(** [visited.add(current_node); self.stats['nodes_explored'] += 1] *)
Definition settle (st : SearchState) (current_node : Z) : SearchState :=
  {| costs := costs st; parents := parents st; pq := pq st;
     visited := {[current_node]} ∪ visited st;
     stats := incr_nodes_explored (stats st) |}.

(** The three assignments of a successful relaxation. *)
Definition relax (st : SearchState) (current_node neighbor : Z)
    (new_cost : cost) : SearchState :=
  {| costs := <[neighbor := new_cost]> (costs st);
     parents := <[neighbor := Some current_node]> (parents st);
     pq := heappush (pq st) (new_cost, neighbor);
     visited := visited st;
     stats := stats st |}.

Section Search.
Variable graph : RoadGraph.
Variable vehicle_type : string.
Variable edge_history : gmap string EdgeHistoryRecord.

(** The [for] loop over the outgoing edges of [current_node]. *)
Fixpoint explore_neighbors (current_node : Z)
    (neighbors : list (Z * R * Metadata)) (st : SearchState)
    : outcome SearchState :=
  match neighbors with
  | [] => Ok st
  | (neighbor, base_dist, metadata) :: rest =>
      let st := set_stats st (examine_edge (stats st) (current_node, neighbor)) in
      if decide (neighbor ∈ visited st) then
        explore_neighbors current_node rest st
      else
        let '(edge_cost, stats') :=
          calculate_adaptive_cost vehicle_type edge_history (stats st)
            current_node neighbor base_dist metadata in
        let st := set_stats st stats' in
        cost_current ← getitem (costs st) current_node;
        let new_cost := cost_add cost_current edge_cost in
        cost_neighbor ← getitem (costs st) neighbor;
        if cost_ltb new_cost cost_neighbor then
          explore_neighbors current_node rest
            (relax st current_node neighbor new_cost)
        else explore_neighbors current_node rest st
  end.

(** The [while pq:] loop; one unit of fuel per extraction. *)
Fixpoint search_loop (fuel : nat) (end_ : Z) (st : SearchState)
    : outcome SearchState :=
  match heappop (pq st) with
  | None => Ok st
  | Some ((current_cost, current_node), pq') =>
      match fuel with
      | O => OutOfFuel
      | S fuel' =>
          let st := set_pq st pq' in
          if decide (current_node ∈ visited st) then
            search_loop fuel' end_ st
          else
            let st := settle st current_node in
            if decide (current_node = end_) then Ok st
            else
              st' ← explore_neighbors current_node
                       (get_neighbors graph current_node) st;
              search_loop fuel' end_ st'
      end
  end.

(** The walk of [_reconstruct_path] along the parent links; [path] grows at
    its end, one unit of fuel per link. *)
Fixpoint follow_parents (fuel : nat) (parents : gmap Z (option Z))
    (current : option Z) (path : list Z) : outcome (list Z) :=
  match current with
  | None => Ok path
  | Some node =>
      match fuel with
      | O => OutOfFuel
      | S fuel' =>
          next ← getitem parents node;
          follow_parents fuel' parents next (path ++ [node])
      end
  end.

(** [_reconstruct_path].  A walk that never comes back to a node reads at most
    [size parents] distinct keys, so the fuel below runs out only on a cycle
    of parent links, where the source loops for ever. *)
Definition reconstruct_path (parents : gmap Z (option Z)) (start end_ : Z)
    : outcome (list Z) :=
  parent_end ← getitem parents end_;
  if bool_decide (parent_end = None) && bool_decide (end_ ≠ start) then Ok []
  else
    path ← follow_parents (S (size parents)) parents (Some end_) [];
    Ok (reverse path).

Definition out_degree (node : Z) : nat := length (get_neighbors graph node).

(** Every extraction takes an entry that was inserted: the start entry or
    one entry per edge examined out of a node settled once. *)
Definition search_fuel (start : Z) : nat :=
  S (sum_list_with out_degree (elements ({[start]} ∪ nodes graph))).

Definition initial_state (start : Z) : SearchState :=
  {| costs := <[start := Finite 0]> (gset_to_gmap Infinity (nodes graph));
     parents := gset_to_gmap None (nodes graph);
     pq := [(Finite 0, start)];
     visited := ∅;
     stats := fresh_stats |}.

Definition find_optimal_path (start end_ : Z)
    : outcome (list Z * cost * Stats) :=
  st ← search_loop (search_fuel start) end_ (initial_state start);
  path ← reconstruct_path (parents st) start end_;
  total_cost ← getitem (costs st) end_;
  match path with
  | _ :: _ =>
      Ok (path, total_cost,
          set_path_length (stats st) (Z.of_nat (length path)))
  | [] => Ok ([], Infinity, stats st)
  end.
End Search.

(** ** Feedback ingestion *)

(** The record created for an edge seen for the first time. *)
Definition new_record : EdgeHistoryRecord :=
  {| usage_count := 0; average_delay := 0.0; failure_rate := 0.0;
     total_delay := 0.0; total_failures := 0 |}.

(** The delay factor: the conditional expression, then the clamp
    [max(0, delay)]. *)
Definition feedback_delay (actual_time expected_time : R) : outcome R :=
  delay ← (if decide (expected_time > 0)%R
           then py_div (actual_time - expected_time) expected_time
           else Ok 0%R);
  Ok (Rmax 0 delay).

(** [DECAY_FACTOR ** (1 / (new_count + 1))] *)
Definition decay_of (new_count : Z) : outcome R :=
  exponent ← py_div 1 (IZR (new_count + 1));
  Ok (Rpower DECAY_FACTOR exponent).

(** The statistics of one record after one more observation. *)
Definition update_record (history : EdgeHistoryRecord) (delay : R)
    (success : bool) : outcome EdgeHistoryRecord :=
  let old_count := usage_count history in
  let new_count := (old_count + 1)%Z in
  decay ← decay_of new_count;
  let total_delay' := (total_delay history * decay + delay)%R in
  average_delay' ← py_div total_delay' (IZR new_count);
  let total_failures' :=
    if success then total_failures history
    else (total_failures history + 1)%Z in
  failure_rate' ← py_div (IZR total_failures') (IZR new_count);
  Ok {| usage_count := new_count;
        average_delay := average_delay';
        failure_rate := failure_rate';
        total_delay := total_delay';
        total_failures := total_failures' |}.

(** The body of the loop over the edges of the path.  An exception leaves the
    loop; the half-written record it would leave behind is not modelled. *)
Definition update_edge (edge_history : gmap string EdgeHistoryRecord)
    (delay : R) (success : bool) (from_node to_node : Z)
    : outcome (gmap string EdgeHistoryRecord) :=
  let edge_key := edge_key from_node to_node in
  let edge_history :=
    if decide (edge_history !! edge_key = None)
    then <[edge_key := new_record]> edge_history
    else edge_history in
  history ← getitem edge_history edge_key;
  history' ← update_record history delay success;
  Ok (<[edge_key := history']> edge_history).

(** [for i in range(len(path) - 1)]: the edges [(path[i], path[i+1])]. *)
Fixpoint update_path (path : list Z)
    (edge_history : gmap string EdgeHistoryRecord) (delay : R)
    (success : bool) : outcome (gmap string EdgeHistoryRecord) :=
  match path with
  | from_node :: ((to_node :: _) as rest) =>
      edge_history' ← update_edge edge_history delay success from_node to_node;
      update_path rest edge_history' delay success
  | _ => Ok edge_history
  end.

Definition record_route_feedback
    (edge_history : gmap string EdgeHistoryRecord) (path : list Z)
    (actual_time expected_time : R) (success : bool)
    : outcome (gmap string EdgeHistoryRecord) :=
  delay ← feedback_delay actual_time expected_time;
  update_path path edge_history delay success.

(** ** Notions used by the properties *)

(** The consecutive edges of a path. *)
Fixpoint path_edges (path : list Z) : list (Z * Z) :=
  match path with
  | from_node :: ((to_node :: _) as rest) =>
      (from_node, to_node) :: path_edges rest
  | _ => []
  end.

(** The invariant of the data model on one record, with the counters of a
    record that has been observed. *)
Definition record_ok (r : EdgeHistoryRecord) : Prop :=
  (1 ≤ usage_count r)%Z ∧
  (0 ≤ total_failures r ≤ usage_count r)%Z ∧
  average_delay r = (total_delay r / IZR (usage_count r))%R ∧
  failure_rate r = (IZR (total_failures r) / IZR (usage_count r))%R.

Definition store_ok (h : gmap string EdgeHistoryRecord) : Prop :=
  ∀ k r, h !! k = Some r → record_ok r.

(** The edges of a graph lead to nodes of the graph. *)
Definition graph_closed (g : RoadGraph) : Prop :=
  ∀ u v d md, (v, d, md) ∈ get_neighbors g u → v ∈ nodes g.

(** [reachable g s v]: a directed walk leads from [s] to [v]. *)
Inductive reachable (g : RoadGraph) (s : Z) : Z → Prop :=
| reachable_refl : reachable g s s
| reachable_step u v d md :
    reachable g s u → (v, d, md) ∈ get_neighbors g u → reachable g s v.

(** The line graph [0 → 1 → 2] of the concrete scenario. *)
Definition line_metadata : Metadata :=
  {| md_traffic_factor := Some 1.0%R; md_quality := Some 1.0%R |}.

Definition line_graph : RoadGraph :=
  {| nodes := {[0%Z; 1%Z; 2%Z]};
     get_neighbors := λ node,
       if decide (node = 0%Z) then [(1%Z, 10%R, line_metadata)]
       else if decide (node = 1%Z) then [(2%Z, 10%R, line_metadata)]
       else [] |}.

(** The graph with the single node [1] and no edge. *)
Definition isolated_node_graph : RoadGraph :=
  {| nodes := {[1%Z]}; get_neighbors := λ _, [] |}.

(** The store with one record for each edge of the line graph. *)
Definition line_history (r01 r12 : EdgeHistoryRecord)
    : gmap string EdgeHistoryRecord :=
  <[edge_key 1 2 := r12]> (<[edge_key 0 1 := r01]> ∅).

(** The constraints of the data model on the derived fields that the cost
    function reads. *)
Definition history_wf (h : gmap string EdgeHistoryRecord) : Prop :=
  ∀ k r, h !! k = Some r →
    (0 <= average_delay r)%R ∧ (0 <= failure_rate r <= 1)%R.

(** The cost component of [calculate_adaptive_cost]; it does not depend on
    the statistics passed in. *)
Definition adaptive_cost (vt : string) (h : gmap string EdgeHistoryRecord)
    (u v : Z) (d : R) (md : Metadata) : R :=
  (calculate_adaptive_cost vt h fresh_stats u v d md).1.

(** The delay of section 4.3 of the specification, in its words:
    [max(0, (actual - expected) / expected)] if [expected > 0], else [0]. *)
Definition spec_delay (actual_time expected_time : R) : R :=
  if decide (expected_time > 0)%R
  then Rmax 0 ((actual_time - expected_time) / expected_time)
  else 0%R.

(** The decay of the update that brings the count to [new_count]. *)
Definition decay_at (new_count : Z) : R :=
  Rpower DECAY_FACTOR (1 / IZR (new_count + 1)).

(** The record that [update_record] returns when no division fails. *)
Definition observe (history : EdgeHistoryRecord) (delay : R) (success : bool)
    : EdgeHistoryRecord :=
  let new_count := (usage_count history + 1)%Z in
  let total_delay' := (total_delay history * decay_at new_count + delay)%R in
  let total_failures' :=
    if success then total_failures history
    else (total_failures history + 1)%Z in
  {| usage_count := new_count;
     average_delay := total_delay' / IZR new_count;
     failure_rate := IZR total_failures' / IZR new_count;
     total_delay := total_delay';
     total_failures := total_failures' |}.

(** The counters of a record before an update: those of [record_ok], or the
    zeros of [new_record]. *)
Definition record_pre (r : EdgeHistoryRecord) : Prop :=
  (0 ≤ usage_count r)%Z ∧ (0 ≤ total_failures r ≤ usage_count r)%Z.

(** Between the stores [h] and [h'] the record under [k] took [j] failed
    observations. *)
Definition failed_observations (h h' : gmap string EdgeHistoryRecord)
    (k : string) (j : Z) : Prop :=
  (j = 0%Z ∧ h' !! k = h !! k) ∨
  ((1 ≤ j)%Z ∧ ∃ r', h' !! k = Some r' ∧
     usage_count r' = (usage_count (default new_record (h !! k)) + j)%Z ∧
     total_failures r' = (total_failures (default new_record (h !! k)) + j)%Z).

(** The keys of the cost table: the nodes of the graph and the start node. *)
Definition universe (g : RoadGraph) (start : Z) : gset Z :=
  {[start]} ∪ nodes g.

(** The parent links go down a rank, and only to settled nodes. *)
Definition ranked (parents : gmap Z (option Z)) (visited : gset Z)
    (rank : Z → nat) : Prop :=
  ∀ v u, parents !! v = Some (Some u) → u ∈ visited ∧ rank u < rank v.

(** The invariant of the search loop.  Every frontier entry names a key of
    the cost table that a walk from [start] reaches; [start] is settled as
    soon as the frontier holds anything else; a parent link is either the
    initial one or leads to a node of the graph that a walk reaches; the
    parent links form no cycle. *)
Record search_inv (g : RoadGraph) (start : Z) (st : SearchState) : Prop := {
  inv_costs : dom (costs st) = universe g start;
  inv_pq : ∀ c n, (c, n) ∈ pq st → n ∈ universe g start ∧ reachable g start n;
  inv_start : start ∈ visited st ∨ ∀ c n, (c, n) ∈ pq st → n = start;
  inv_parents : ∀ v,
    parents st !! v = gset_to_gmap None (nodes g) !! v ∨
    (v ∈ nodes g ∧ reachable g start v ∧ ∃ u, parents st !! v = Some (Some u));
  inv_rank : ∃ rank, ranked (parents st) (visited st) rank
}.

(** [chain_from parents c l]: [l] lists the nodes that the walk of
    [_reconstruct_path] from [c] goes through, each with a parent. *)
Fixpoint chain_from (parents : gmap Z (option Z)) (c : Z) (l : list Z)
    : Prop :=
  match l with
  | [] => True
  | x :: l' =>
      x = c ∧ ∃ y, parents !! c = Some (Some y) ∧ chain_from parents y l'
  end.

(** The extractions still to come: the frontier entries, and one per edge out
    of a node that is not settled yet. *)
Definition pending (g : RoadGraph) (start : Z) (st : SearchState) : nat :=
  length (pq st) +
  sum_list_with (out_degree g)
    (filter (λ u, u ∉ visited st) (elements (universe g start))).

(** Two records used to instantiate the statements: one past the
    minimum-samples threshold, one below it with a poor history. *)
Definition mature_record : EdgeHistoryRecord :=
  {| usage_count := 4; average_delay := 0.5; failure_rate := 0.25;
     total_delay := 2; total_failures := 1 |}.

Definition young_record : EdgeHistoryRecord :=
  {| usage_count := 2; average_delay := 50; failure_rate := 1;
     total_delay := 100; total_failures := 2 |}.

(** ** The history summary *)







(** ** Further notions used by the properties *)

(** How many edges of the path have the key [k]. *)
Definition edge_occurrences (k : string) (path : list Z) : Z :=
  Z.of_nat (length (filter (λ e, edge_key e.1 e.2 = k) (path_edges path))).

(** A sequence of [record_route_feedback] calls, each on the store the
    previous one left. *)
Definition run_feedback (calls : list (list Z * R * R * bool))
    (h : gmap string EdgeHistoryRecord)
    : outcome (gmap string EdgeHistoryRecord) :=
  foldl (λ acc call,
           h ← acc;
           record_route_feedback h call.1.1.1 call.1.1.2 call.1.2 call.2)
        (Ok h) calls.

Definition delay_bounded (D : R) (h : gmap string EdgeHistoryRecord) : Prop :=
  ∀ k r, h !! k = Some r → (0 <= total_delay r)%R ∧ (average_delay r <= D)%R.



(** [walk g vt h s v p c]: [p] is the node sequence of a walk from [s] to
    [v], and [c] the sum of the adaptive costs of its edges, added in the
    order of the walk. *)
Inductive walk (g : RoadGraph) (vt : string)
    (h : gmap string EdgeHistoryRecord) (s : Z) : Z → list Z → R → Prop :=
| walk_start : walk g vt h s s [s] 0
| walk_edge u v d md p c :
    walk g vt h s u p c → (v, d, md) ∈ get_neighbors g u →
    walk g vt h s v (p ++ [v]) (c + adaptive_cost vt h u v d md).

Definition nonneg_costs (g : RoadGraph) (vt : string)
    (h : gmap string EdgeHistoryRecord) : Prop :=
  ∀ u v d md, (v, d, md) ∈ get_neighbors g u →
    (0 <= adaptive_cost vt h u v d md)%R.

(** The cost table holds for [v] a finite cost of at most [r]. *)
Definition bounded (costs : gmap Z cost) (v : Z) (r : R) : Prop :=
  ∃ cv, costs !! v = Some (Finite cv) ∧ (cv <= r)%R.

(** The order of the tuples [(cost, node_id)]. *)
Definition entry_lt (a b : entry) : Prop :=
  match a.1, b.1 with
  | Finite x, Finite y => (x < y)%R ∨ (x = y ∧ (a.2 < b.2)%Z)
  | Finite _, Infinity => True
  | Infinity, Finite _ => False
  | Infinity, Infinity => (a.2 < b.2)%Z
  end.

(** What the cost and parent tables say about paths: the start keeps cost 0
    and no parent; the cost of a node with a parent is the cost of the
    parent, which is settled, plus the cost of an edge between them; the
    frontier entries and the settled nodes are the start or have a parent. *)
Record path_inv (g : RoadGraph) (vt : string)
    (h : gmap string EdgeHistoryRecord) (start : Z) (st : SearchState)
    : Prop := {
  pi_start_cost : costs st !! start = Some (Finite 0);
  pi_start_parent : ∀ u, parents st !! start ≠ Some (Some u);
  pi_parent : ∀ v u, parents st !! v = Some (Some u) →
    u ∈ visited st ∧
    ∃ cu d md, costs st !! u = Some (Finite cu) ∧
      (v, d, md) ∈ get_neighbors g u ∧
      costs st !! v = Some (Finite (cu + adaptive_cost vt h u v d md));
  pi_pq : ∀ c n, (c, n) ∈ pq st →
    n = start ∨ ∃ u, parents st !! n = Some (Some u);
  pi_visited : ∀ v, v ∈ visited st →
    v = start ∨ ∃ u, parents st !! v = Some (Some u);
  pi_init : start ∈ visited st ∨
            (visited st = ∅ ∧ pq st = [(Finite 0, start)])
}.

(** The invariant of a label-setting search, with [E] the settled nodes
    whose edges have all been examined: settled costs are least; the edges
    out of [E] are relaxed; a node with a finite cost that is not settled has
    a frontier entry with that cost; frontier entries are finite and not
    below the cost of their node nor below a settled cost. *)
Record opt_inv (g : RoadGraph) (vt : string)
    (h : gmap string EdgeHistoryRecord) (start : Z) (E : gset Z)
    (st : SearchState) : Prop := {
  oi_settled : ∀ u p c, u ∈ visited st → walk g vt h start u p c →
    bounded (costs st) u c;
  oi_edges : ∀ u v d md, u ∈ E → (v, d, md) ∈ get_neighbors g u →
    ∃ cu, costs st !! u = Some (Finite cu) ∧
      bounded (costs st) v (cu + adaptive_cost vt h u v d md);
  oi_frontier : ∀ v cv, v ∉ visited st → costs st !! v = Some (Finite cv) →
    (Finite cv, v) ∈ pq st;
  oi_entries : ∀ c n, (c, n) ∈ pq st →
    ∃ r, c = Finite r ∧ bounded (costs st) n r;
  oi_mono : ∀ u c n, u ∈ visited st → (c, n) ∈ pq st →
    ∃ r, c = Finite r ∧ bounded (costs st) u r
}.

(** [path_inv] always, [opt_inv] when no edge cost is negative. *)
Definition search_ok (g : RoadGraph) (vt : string)
    (h : gmap string EdgeHistoryRecord) (start : Z) (E : gset Z)
    (st : SearchState) : Prop :=
  path_inv g vt h start st ∧
  (nonneg_costs g vt h → opt_inv g vt h start E st).

(** [parent_chain parents c l]: [l] starts at [c], follows the parent links
    and ends at a node whose parent is [None]. *)
Inductive parent_chain (parents : gmap Z (option Z)) : Z → list Z → Prop :=
| chain_root c : parents !! c = Some None → parent_chain parents c [c]
| chain_link c y l :
    parents !! c = Some (Some y) → parent_chain parents y l →
    parent_chain parents c (c :: l).

(** What the statistics count. *)
Record stats_inv (g : RoadGraph) (start : Z) (st : SearchState) : Prop := {
  si_nodes : nodes_explored (stats st) = Z.of_nat (size (visited st));
  si_edges :
    edges_examined (stats st) = Z.of_nat (length (explored_edges (stats st)));
  si_history :
    (0 ≤ history_influenced (stats st) ≤ edges_examined (stats st))%Z;
  si_explored : ∀ u v, (u, v) ∈ explored_edges (stats st) →
    u ∈ visited st ∧ ∃ d md, (v, d, md) ∈ get_neighbors g u;
  si_visited : visited st ⊆ universe g start;
  si_pq : ∀ c n, (c, n) ∈ pq st → n ∈ dom (costs st);
  si_costs : dom (costs st) = universe g start;
  si_path_length : path_length (stats st) = 0%Z
}.

(** Records and metadata used to instantiate the statements below: a record
    worse than [mature_record], a record with a negative count as a hand-edited
    history file can hold, and a road of poor quality. *)
Definition worn_record : EdgeHistoryRecord :=
  {| usage_count := 12; average_delay := 0.75; failure_rate := 0.5;
     total_delay := 9; total_failures := 6 |}.


Definition rough_metadata : Metadata :=
  {| md_traffic_factor := Some 1.0%R; md_quality := Some 0.4%R |}.

(** * Properties *)

#[local] Set Warnings "-clear-no-such-hyp".

(** ** Outcomes and dictionary reads *)

Lemma getitem_Ok `{Countable K} {V} (d : gmap K V) k v :
  d !! k = Some v → getitem d k = Ok v.
Proof. unfold getitem. by intros ->. Qed.

Lemma getitem_KeyError `{Countable K} {V} (d : gmap K V) k :
  d !! k = None → getitem d k = Raise KeyError.
Proof. unfold getitem. by intros ->. Qed.

Lemma py_div_IZR x n : n ≠ 0%Z → py_div x (IZR n) = Ok (x / IZR n)%R.
Proof.
  intros Hn. unfold py_div. case_decide as H; [|done].
  by apply eq_IZR_R0 in H.
Qed.

(** ** The adaptive edge cost *)

Lemma vehicle_penalty_pos vt q : (0 < vehicle_penalty vt q)%R.
Proof. unfold vehicle_penalty. repeat case_decide; lra. Qed.

Lemma historical_penalty_ge_1 r :
  (MIN_SAMPLES ≤ usage_count r)%Z →
  (0 <= average_delay r)%R → (0 <= failure_rate r)%R →
  (1 <= historical_penalty r)%R.
Proof.
  intros Hn Ha Hf. unfold historical_penalty, HISTORICAL_WEIGHT.
  assert (Hc : (0 <= Rmin (IZR (usage_count r) / 10.0) 1.0)%R).
  { apply Rmin_glb; [|lra].
    apply IZR_le in Hn. unfold MIN_SAMPLES in Hn. lra. }
  assert (Hs : (0 <= average_delay r + failure_rate r * 2.0)%R) by lra.
  nra.
Qed.

Lemma calculate_adaptive_cost_fst vt h s u v d md :
  (calculate_adaptive_cost vt h s u v d md).1 = adaptive_cost vt h u v d md.
Proof.
  unfold adaptive_cost, calculate_adaptive_cost.
  destruct (h !! edge_key u v); [|done]. by case_decide.
Qed.

Lemma adaptive_cost_empty vt u v d md :
  adaptive_cost vt ∅ u v d md = static_cost vt d md.
Proof. unfold adaptive_cost, calculate_adaptive_cost. by rewrite lookup_empty. Qed.

Lemma adaptive_cost_mature vt h u v d md r :
  h !! edge_key u v = Some r → (MIN_SAMPLES ≤ usage_count r)%Z →
  adaptive_cost vt h u v d md = (static_cost vt d md * historical_penalty r)%R.
Proof.
  intros Hr Hn. unfold adaptive_cost, calculate_adaptive_cost. rewrite Hr.
  by rewrite decide_True by lia.
Qed.

Lemma line_keys_ne : edge_key 0 1 ≠ edge_key 1 2.
Proof. by vm_compute. Qed.

Lemma line_history_lookup r01 r12 k r :
  line_history r01 r12 !! k = Some r → r = r01 ∨ r = r12.
Proof.
  unfold line_history. rewrite !lookup_insert, lookup_empty.
  repeat case_decide; naive_solver.
Qed.

(** C2. For an edge with [base_distance ≥ 0] and a traffic factor [≥ 0], any
    vehicle class and any history whose records have [average_delay ≥ 0] and
    [failure_rate] in [[0,1]], the cost of [_calculate_adaptive_cost] is at
    least the static [base_distance * traffic_factor * vehicle_penalty]. *)
Theorem adaptive_cost_ge_static vt h stats u v d md :
  (0 <= d)%R →
  (0 <= default 1.0 (md_traffic_factor md))%R →
  history_wf h →
  (d * default 1.0 (md_traffic_factor md)
     * vehicle_penalty vt (default 1.0 (md_quality md))
   <= (calculate_adaptive_cost vt h stats u v d md).1)%R.
Proof.
  intros Hd Ht Hwf. unfold calculate_adaptive_cost, static_cost.
  pose proof (vehicle_penalty_pos vt (default 1.0%R (md_quality md))) as Hv.
  set (b := (d * _ * _)%R).
  assert (Hb : (0 <= b)%R).
  { subst b. apply Rmult_le_pos; [apply Rmult_le_pos|]; lra. }
  destruct (h !! edge_key u v) as [r|] eqn:Hr; simpl; [|lra].
  case_decide; simpl; [|lra].
  destruct (Hwf _ _ Hr) as [Ha [Hf _]].
  pose proof (historical_penalty_ge_1 r ltac:(lia) Ha Hf). nra.
Qed.

Lemma adaptive_cost_ge_static_witness :
  (10 * default 1.0 (md_traffic_factor line_metadata)
      * vehicle_penalty "bajaji" (default 1.0 (md_quality line_metadata))
   <= (calculate_adaptive_cost "bajaji"
         (line_history mature_record young_record) fresh_stats 0 1 10
         line_metadata).1)%R.
Proof.
  apply (adaptive_cost_ge_static "bajaji"
           (line_history mature_record young_record) fresh_stats 0 1 10
           line_metadata).
  - lra.
  - simpl. lra.
  - intros k r Hr.
    destruct (line_history_lookup _ _ _ _ Hr) as [-> | ->]; simpl; lra.
Defined.

(** C3. When the edge key is absent from the history, or present with a
    [usage_count] below [MIN_SAMPLES], [_calculate_adaptive_cost] returns
    exactly [base_distance * traffic_factor * vehicle_penalty], whatever the
    record holds, and the statistics, with their history-influenced counter,
    are returned as they came. *)
Theorem low_confidence_cost_is_static vt h stats u v d md :
  (h !! edge_key u v = None ∨
   ∃ r, h !! edge_key u v = Some r ∧ (usage_count r < MIN_SAMPLES)%Z) →
  calculate_adaptive_cost vt h stats u v d md =
    ((d * default 1.0 (md_traffic_factor md)
        * vehicle_penalty vt (default 1.0 (md_quality md)))%R, stats).
Proof.
  intros [Hn | (r & Hr & Hlt)]; unfold calculate_adaptive_cost, static_cost.
  - by rewrite Hn.
  - rewrite Hr. case_decide; [lia | done].
Qed.

Lemma low_confidence_cost_is_static_witness :
  calculate_adaptive_cost "boda" (line_history mature_record young_record)
    fresh_stats 1 2 10 line_metadata =
    ((10 * default 1.0 (md_traffic_factor line_metadata)
         * vehicle_penalty "boda" (default 1.0 (md_quality line_metadata)))%R,
     fresh_stats).
Proof.
  apply (low_confidence_cost_is_static "boda"
           (line_history mature_record young_record) fresh_stats 1 2 10
           line_metadata).
  right. exists young_record. split.
  - unfold line_history. apply lookup_insert_eq.
  - vm_compute. reflexivity.
Defined.

(** ** Feedback ingestion: the delay *)

Lemma feedback_delay_eq a e : feedback_delay a e = Ok (spec_delay a e).
Proof.
  unfold feedback_delay, spec_delay, py_div. case_decide as He.
  - case_decide; [lra | done].
  - simpl. f_equal. apply Rmax_left. lra.
Qed.

Lemma spec_delay_nonneg a e : (0 <= spec_delay a e)%R.
Proof. unfold spec_delay. case_decide; [apply Rmax_l | lra]. Qed.

(** C8. The delay that [record_route_feedback] computes and folds into every
    edge of the path is [max(0, (actual - expected) / expected)] when
    [expected > 0] and [0] otherwise; its computation raises nothing, also for
    [expected ≤ 0], and the delay is never negative. *)
Theorem feedback_delay_spec h path a e s :
  feedback_delay a e =
    Ok (if decide (e > 0)%R then Rmax 0 ((a - e) / e) else 0%R) ∧
  record_route_feedback h path a e s =
    update_path path h
      (if decide (e > 0)%R then Rmax 0 ((a - e) / e) else 0%R) s ∧
  (0 <= (if decide (e > 0)%R then Rmax 0 ((a - e) / e) else 0%R))%R.
Proof.
  split_and!.
  - apply feedback_delay_eq.
  - unfold record_route_feedback. by rewrite feedback_delay_eq.
  - apply spec_delay_nonneg.
Qed.

(** ** Feedback ingestion: one record *)

Lemma decay_of_eq n : (n + 1 ≠ 0)%Z → decay_of n = Ok (decay_at n).
Proof. intros Hn. unfold decay_of, decay_at. by rewrite py_div_IZR. Qed.

Lemma update_record_eq r d s :
  (0 ≤ usage_count r)%Z → update_record r d s = Ok (observe r d s).
Proof.
  intros Hn. unfold update_record.
  rewrite decay_of_eq by lia. simpl.
  rewrite py_div_IZR by lia. simpl.
  rewrite py_div_IZR by lia. done.
Qed.

Lemma update_edge_eq h d s u v :
  (0 ≤ usage_count (default new_record (h !! edge_key u v)))%Z →
  update_edge h d s u v =
    Ok (<[edge_key u v :=
            observe (default new_record (h !! edge_key u v)) d s]> h).
Proof.
  intros Hn. unfold update_edge.
  destruct (h !! edge_key u v) as [r|] eqn:Hr; simpl in *.
  - unfold getitem. rewrite Hr. simpl.
    by rewrite update_record_eq.
  - unfold getitem. rewrite lookup_insert_eq. simpl.
    rewrite update_record_eq by done. simpl. by rewrite insert_insert_eq.
Qed.

(** ** The decay factor *)

Lemma ln_decay_neg : (ln DECAY_FACTOR < 0)%R.
Proof.
  unfold DECAY_FACTOR. rewrite <- ln_1. apply ln_increasing; lra.
Qed.

Lemma decay_at_pos n : (0 < decay_at n)%R.
Proof. unfold decay_at, Rpower. apply exp_pos. Qed.

Lemma decay_at_lt n m : (0 ≤ n)%Z → (n < m)%Z → (decay_at n < decay_at m)%R.
Proof.
  intros Hn Hm. unfold decay_at, Rpower. apply exp_increasing.
  pose proof ln_decay_neg as Hl.
  assert (H1 : (0 < IZR (n + 1))%R) by (apply IZR_lt; lia).
  assert (H2 : (IZR (n + 1) < IZR (m + 1))%R) by (apply IZR_lt; lia).
  assert (H3 : (1 / IZR (m + 1) < 1 / IZR (n + 1))%R).
  { unfold Rdiv. rewrite !Rmult_1_l. apply Rinv_lt_contravar; [|done].
    apply Rmult_lt_0_compat; lra. }
  apply Ropp_lt_cancel. rewrite !Ropp_mult_distr_r.
  apply Rmult_lt_compat_r; [clear -Hl; lra | done].
Qed.

Lemma decay_at_lt_1 n : (0 ≤ n)%Z → (decay_at n < 1)%R.
Proof.
  intros Hn. unfold decay_at, Rpower.
  apply Rlt_le_trans with (exp 0); [|rewrite exp_0; lra]. apply exp_increasing.
  pose proof ln_decay_neg as Hl.
  assert (H1 : (0 < IZR (n + 1))%R) by (apply IZR_lt; lia).
  assert (H2 : (0 < 1 / IZR (n + 1))%R).
  { apply Rdiv_lt_0_compat; lra. }
  apply Ropp_lt_cancel. rewrite Ropp_0, Ropp_mult_distr_r.
  apply Rmult_lt_0_compat; [done | clear -Hl; lra].
Qed.

Lemma decay_at_limit eps :
  (0 < eps)%R → ∃ N, ∀ n, (N ≤ n)%Z → (1 - decay_at n < eps)%R.
Proof.
  intros Heps. pose proof ln_decay_neg as Hl.
  set (c := (- ln DECAY_FACTOR)%R).
  assert (Hc : (0 < c)%R) by (subst c; lra).
  exists (Z.max 0 (up (c / eps))). intros n Hn.
  assert (H1 : (0 < IZR (n + 1))%R) by (apply IZR_lt; lia).
  assert (H2 : (c / eps < IZR (n + 1))%R).
  { destruct (archimed (c / eps)) as [Hup _].
    eapply Rlt_le_trans; [apply Rgt_lt, Hup|]. apply IZR_le. lia. }
  unfold decay_at, Rpower.
  pose proof (exp_ineq1_le (1 / IZR (n + 1) * ln DECAY_FACTOR)) as He.
  assert (H3 : (c / IZR (n + 1) < eps)%R).
  { apply Rmult_lt_reg_r with (IZR (n + 1)); [done|].
    unfold Rdiv. rewrite Rmult_assoc, Rinv_l by lra.
    apply Rmult_lt_reg_r with (/ eps)%R; [by apply Rinv_0_lt_compat|].
    rewrite Rmult_1_r. rewrite (Rmult_comm eps), Rmult_assoc, Rinv_r by lra.
    unfold Rdiv in H2. lra. }
  assert (H4 : (1 / IZR (n + 1) * ln DECAY_FACTOR = - (c / IZR (n + 1)))%R).
  { subst c. unfold Rdiv. lra. }
  rewrite H4 in *. lra.
Qed.

(** C9, as amended. An update of the record of an edge, with [old_count] its
    count before and [new_count = old_count + 1], computes
    [decay = DECAY_FACTOR ** (1 / (new_count + 1))], then
    [total_delay' = total_delay * decay + delay], then
    [average_delay' = total_delay' / new_count].  The decay grows with the
    count, stays below 1 and tends to 1; it is farthest from 1 on the first
    observation, where it multiplies the zero of a new record, and among the
    later updates on the second one. *)
Theorem update_edge_decay h delay success u v :
  let old := default new_record (h !! edge_key u v) in
  let new_count := (usage_count old + 1)%Z in
  (0 ≤ usage_count old)%Z →
  (∃ decay r',
     decay_of new_count = Ok decay ∧
     decay = Rpower DECAY_FACTOR (1 / IZR (new_count + 1)) ∧
     update_edge h delay success u v = Ok (<[edge_key u v := r']> h) ∧
     usage_count r' = new_count ∧
     total_delay r' = (total_delay old * decay + delay)%R ∧
     average_delay r' = (total_delay r' / IZR new_count)%R ∧
     (h !! edge_key u v = None → total_delay r' = delay)) ∧
  (∀ n, (1 ≤ n)%Z →
     decay_of n = Ok (decay_at n) ∧ (decay_at 1 <= decay_at n < 1)%R) ∧
  (∀ n, (2 ≤ n)%Z → (decay_at 2 <= decay_at n)%R) ∧
  (∀ n m, (1 ≤ n < m)%Z → (decay_at n < decay_at m)%R) ∧
  (∀ eps, (0 < eps)%R → ∃ N, ∀ n, (N ≤ n)%Z → (1 - decay_at n < eps)%R).
Proof.
  intros old new_count Hold. split_and!.
  - exists (decay_at new_count), (observe old delay success). split_and!.
    + apply decay_of_eq. subst new_count. lia.
    + done.
    + by apply update_edge_eq.
    + done.
    + done.
    + done.
    + intros Hnone. subst old. rewrite Hnone. simpl. lra.
  - intros n Hn. split; [apply decay_of_eq; lia|]. split.
    + destruct (decide (n = 1%Z)) as [->|Hne]; [lra|].
      left. apply decay_at_lt; lia.
    + apply decay_at_lt_1. lia.
  - intros n Hn. destruct (decide (n = 2%Z)) as [->|Hne]; [lra|].
    left. apply decay_at_lt; lia.
  - intros n m Hnm. apply decay_at_lt; lia.
  - apply decay_at_limit.
Qed.

Lemma update_edge_decay_witness :
  ∃ decay r',
    decay_of 1 = Ok decay ∧
    update_edge ∅ 0.5 true 0 1 = Ok (<[edge_key 0 1 := r']> ∅) ∧
    total_delay r' = (0.0 * decay + 0.5)%R.
Proof.
  destruct (update_edge_decay ∅ 0.5 true 0 1) as [(decay & r' & H) _].
  - rewrite lookup_empty. simpl. lia.
  - rewrite lookup_empty in H. simpl in H.
    destruct H as (Hd & _ & Hu & _ & Ht & _). by exists decay, r'.
Defined.

(** C9, the statement as given fails: the decay computed on the first
    observation of an edge is farther from 1 than the decay computed on the
    second. *)
Lemma decay_farthest_on_first_observation :
  ∃ d1 d2, decay_of 1 = Ok d1 ∧ decay_of 2 = Ok d2 ∧
    (Rabs (1 - d2) < Rabs (1 - d1))%R.
Proof.
  exists (decay_at 1), (decay_at 2). split_and!.
  - by apply decay_of_eq.
  - by apply decay_of_eq.
  - pose proof (decay_at_lt 1 2 ltac:(lia) ltac:(lia)).
    pose proof (decay_at_lt_1 2 ltac:(lia)).
    rewrite !Rabs_pos_eq by lra. lra.
Qed.

(** ** Feedback ingestion: the store *)

Lemma path_ind2 (P : list Z → Prop) :
  P [] → (∀ u, P [u]) → (∀ u v rest, P (v :: rest) → P (u :: v :: rest)) →
  ∀ path, P path.
Proof.
  intros H0 H1 H2 path. induction path as [|u [|v rest] IH]; auto.
Qed.

Lemma record_ok_pre r : record_ok r → record_pre r.
Proof. intros (? & ? & _). split; lia. Qed.

Lemma new_record_pre : record_pre new_record.
Proof. unfold record_pre, new_record; simpl. lia. Qed.

Lemma observe_ok r d s : record_pre r → record_ok (observe r d s).
Proof.
  intros [Hn Hf]. unfold record_ok, observe; simpl.
  split_and!; try done; try lia; destruct s; lia.
Qed.

Lemma default_record_pre (h : gmap string EdgeHistoryRecord) k :
  store_ok h → record_pre (default new_record (h !! k)).
Proof.
  intros Hok. destruct (h !! k) as [r|] eqn:Hr; simpl.
  - apply record_ok_pre. by eapply Hok.
  - apply new_record_pre.
Qed.

Lemma store_ok_insert (h : gmap string EdgeHistoryRecord) k r :
  store_ok h → record_ok r → store_ok (<[k := r]> h).
Proof.
  intros Hok Hr k' r'. rewrite lookup_insert. case_decide; [|by apply Hok].
  by intros [= <-].
Qed.

Lemma store_ok_empty : store_ok ∅.
Proof. intros k r. by rewrite lookup_empty. Qed.

Lemma mature_record_ok : record_ok mature_record.
Proof. unfold record_ok, mature_record; simpl. split_and!; try lia; lra. Qed.

Lemma young_record_ok : record_ok young_record.
Proof. unfold record_ok, young_record; simpl. split_and!; try lia; lra. Qed.

Lemma line_history_ok r01 r12 :
  record_ok r01 → record_ok r12 → store_ok (line_history r01 r12).
Proof.
  intros H01 H12 k r Hr.
  by destruct (line_history_lookup _ _ _ _ Hr) as [-> | ->].
Qed.

Lemma update_edge_ok h d s u v :
  store_ok h →
  update_edge h d s u v =
    Ok (<[edge_key u v :=
            observe (default new_record (h !! edge_key u v)) d s]> h).
Proof.
  intros Hok. apply update_edge_eq.
  by destruct (default_record_pre h (edge_key u v) Hok).
Qed.

Lemma update_path_store_ok path : ∀ h d s,
  store_ok h → ∃ h', update_path path h d s = Ok h' ∧ store_ok h'.
Proof.
  induction path as [|u|u v rest IH] using path_ind2; intros h d s Hok;
    [by exists h | by exists h |].
  cbn [update_path]. rewrite update_edge_ok by done. cbn [mbind outcome_bind].
  apply IH. apply store_ok_insert; [done|].
  apply observe_ok. by apply default_record_pre.
Qed.

Lemma record_ok_failure_rate r : record_ok r → (0 <= failure_rate r <= 1)%R.
Proof.
  intros (Hn & Hf & _ & ->).
  assert (H1 : (0 < IZR (usage_count r))%R) by (apply IZR_lt; lia).
  assert (H2 : (0 <= IZR (total_failures r))%R) by (apply IZR_le; lia).
  assert (H3 : (IZR (total_failures r) <= IZR (usage_count r))%R)
    by (apply IZR_le; lia).
  split.
  - apply Rmult_le_pos; [done|]. left. by apply Rinv_0_lt_compat.
  - apply Rmult_le_reg_r with (IZR (usage_count r)); [done|].
    unfold Rdiv. rewrite Rmult_assoc, Rinv_l, Rmult_1_r, Rmult_1_l; [done|].
    clear -H1. lra.
Qed.

(** C4. On a store whose records satisfy the invariant of the data model,
    [record_route_feedback] returns, and in the store it leaves every record
    has [average_delay = total_delay / usage_count] and
    [failure_rate = total_failures / usage_count] with
    [0 ≤ total_failures ≤ usage_count], so that [failure_rate] is in [[0,1]].
    The empty store satisfies the invariant ([store_ok_empty]). *)
Theorem feedback_keeps_derived_fields h path a e s :
  store_ok h →
  ∃ h', record_route_feedback h path a e s = Ok h' ∧
    ∀ k r, h' !! k = Some r →
      average_delay r = (total_delay r / IZR (usage_count r))%R ∧
      failure_rate r = (IZR (total_failures r) / IZR (usage_count r))%R ∧
      (0 ≤ total_failures r ≤ usage_count r)%Z ∧
      (1 ≤ usage_count r)%Z ∧
      (0 <= failure_rate r <= 1)%R.
Proof.
  intros Hok. unfold record_route_feedback. rewrite feedback_delay_eq.
  cbn [mbind outcome_bind].
  destruct (update_path_store_ok path h (spec_delay a e) s Hok)
    as (h' & -> & Hok').
  exists h'. split; [done|]. intros k r Hr.
  pose proof (record_ok_failure_rate r (Hok' _ _ Hr)).
  destruct (Hok' _ _ Hr) as (? & ? & ? & ?). done.
Qed.

Lemma feedback_keeps_derived_fields_witness :
  ∃ h', record_route_feedback (line_history mature_record young_record)
          [0; 1; 2]%Z 30 20 false = Ok h' ∧
    ∀ k r, h' !! k = Some r →
      average_delay r = (total_delay r / IZR (usage_count r))%R ∧
      failure_rate r = (IZR (total_failures r) / IZR (usage_count r))%R ∧
      (0 ≤ total_failures r ≤ usage_count r)%Z ∧
      (1 ≤ usage_count r)%Z ∧
      (0 <= failure_rate r <= 1)%R.
Proof.
  apply (feedback_keeps_derived_fields
           (line_history mature_record young_record) [0; 1; 2]%Z 30 20 false).
  apply line_history_ok; [apply mature_record_ok | apply young_record_ok].
Defined.

(** The invariant holds after any sequence of feedback calls on a store that
    started empty. *)
Corollary feedback_calls_store_ok (calls : list (list Z * R * R * bool)) :
  ∀ h, store_ok h →
  ∃ h', foldl (λ acc call, h ← acc;
                 record_route_feedback h call.1.1.1 call.1.1.2 call.1.2 call.2)
              (Ok h) calls = Ok h' ∧ store_ok h'.
Proof.
  induction calls as [|[[[path a] e] s] calls IH]; intros h Hok;
    [by exists h|].
  cbn [foldl mbind outcome_bind fst snd].
  unfold record_route_feedback at 2. rewrite feedback_delay_eq.
  cbn [mbind outcome_bind].
  destruct (update_path_store_ok path h (spec_delay a e) s Hok)
    as (h1 & -> & Hok1).
  by apply IH.
Qed.

(** ** Feedback ingestion: failed routes *)

Lemma update_path_failed path : ∀ h d,
  store_ok h →
  ∃ h', update_path path h d false = Ok h' ∧ store_ok h' ∧
    ∀ k, ∃ j, failed_observations h h' k j ∧
      ((∃ u v, (u, v) ∈ path_edges path ∧ k = edge_key u v) → (1 ≤ j)%Z).
Proof.
  induction path as [|u|u v rest IH] using path_ind2; intros h d Hok.
  - exists h. split_and!; try done. intros k. exists 0%Z. split; [by left|].
    intros (u & v & Hin & _). simpl in Hin. by apply elem_of_nil in Hin.
  - exists h. split_and!; try done. intros k. exists 0%Z. split; [by left|].
    intros (u' & v & Hin & _). simpl in Hin. by apply elem_of_nil in Hin.
  - cbn [update_path]. rewrite update_edge_ok by done.
    cbn [mbind outcome_bind].
    set (r1 := observe (default new_record (h !! edge_key u v)) d false).
    assert (Hok1 : store_ok (<[edge_key u v := r1]> h)).
    { apply store_ok_insert; [done|]. apply observe_ok.
      by apply default_record_pre. }
    destruct (IH _ d Hok1) as (h' & Hrun & Hok' & Hk).
    exists h'. split_and!; try done. intros k.
    destruct (Hk k) as (j & Hj & Hpos).
    destruct (decide (k = edge_key u v)) as [->|Hne].
    + exists (j + 1)%Z. split.
      * right. unfold failed_observations in Hj.
        rewrite lookup_insert_eq in Hj. simpl in Hj.
        destruct Hj as [[-> Heq] | (Hj1 & r' & Hr' & Hc & Hf)].
        -- split; [lia|]. exists r1. rewrite Heq. by subst r1.
        -- split; [lia|]. exists r'. split; [done|]. rewrite Hc, Hf.
           subst r1; simpl. lia.
      * intros _. destruct Hj as [[-> _] | [? _]]; lia.
    + exists j. split.
      * unfold failed_observations in *.
        by rewrite lookup_insert_ne in Hj.
      * intros (u' & v' & Hin & ->). apply Hpos.
        cbn [path_edges] in Hin.
        apply elem_of_cons in Hin as [[= -> ->] | Hin];
          [done | by exists u', v'].
Qed.

Lemma failure_ratio_lt f n j :
  (1 ≤ n)%Z → (0 ≤ f < n)%Z → (1 ≤ j)%Z →
  (IZR f / IZR n < IZR (f + j) / IZR (n + j))%R.
Proof.
  intros Hn Hf Hj.
  assert (H1 : (0 < IZR n)%R) by (apply IZR_lt; lia).
  assert (H2 : (0 < IZR (n + j))%R) by (apply IZR_lt; lia).
  apply Rmult_lt_reg_r with (IZR n * IZR (n + j))%R;
    [by apply Rmult_lt_0_compat|].
  replace (IZR f / IZR n * (IZR n * IZR (n + j)))%R
    with (IZR f * IZR (n + j))%R by (field; clear -H1; lra).
  replace (IZR (f + j) / IZR (n + j) * (IZR n * IZR (n + j)))%R
    with (IZR (f + j) * IZR n)%R by (field; clear -H2; lra).
  rewrite <- !mult_IZR. apply IZR_lt. nia.
Qed.

Lemma ratio_same n : (1 ≤ n)%Z → (IZR n / IZR n)%R = 1%R.
Proof.
  intros Hn. assert (H1 : (0 < IZR n)%R) by (apply IZR_lt; lia).
  field. clear -H1. lra.
Qed.

(** C5, as amended. After [record_route_feedback] with [success = False] on a
    store that satisfies the invariant, for every edge of the path: a record
    created by this call has [failure_rate = 1]; a record that had a
    [failure_rate] below 1 has a strictly greater one; a record whose
    [failure_rate] was 1 keeps 1. *)
Theorem failed_feedback_failure_rate h path a e u v :
  store_ok h → (u, v) ∈ path_edges path →
  ∃ h' r', record_route_feedback h path a e false = Ok h' ∧
    h' !! edge_key u v = Some r' ∧
    match h !! edge_key u v with
    | None => failure_rate r' = 1%R
    | Some r =>
        ((failure_rate r < 1)%R → (failure_rate r < failure_rate r')%R) ∧
        (failure_rate r = 1%R → failure_rate r' = 1%R)
    end.
Proof.
  intros Hok Hin. unfold record_route_feedback. rewrite feedback_delay_eq.
  cbn [mbind outcome_bind].
  destruct (update_path_failed path h (spec_delay a e) Hok)
    as (h' & Hrun & Hok' & Hk).
  destruct (Hk (edge_key u v)) as (j & Hj & Hpos).
  specialize (Hpos ltac:(by exists u, v)).
  destruct Hj as [[-> _] | (_ & r' & Hr' & Hc & Hf)]; [lia|].
  exists h', r'. split_and!; try done.
  destruct (Hok' _ _ Hr') as (Hn' & Hf' & _ & Hfr').
  destruct (h !! edge_key u v) as [r|] eqn:Hr; simpl in *.
  - destruct (Hok _ _ Hr) as (Hn & Hfn & _ & Hfr).
    rewrite Hfr, Hfr', Hc, Hf.
    destruct (decide (total_failures r = usage_count r)) as [Heq|Hne].
    + rewrite Heq, !ratio_same by lia. split; [lra | done].
    + pose proof (failure_ratio_lt (total_failures r) (usage_count r) j
        ltac:(lia) ltac:(lia) ltac:(lia)) as Hlt.
      split; [done|]. intros H1.
      exfalso. apply Hne. apply eq_IZR.
      assert (H0 : (0 < IZR (usage_count r))%R) by (apply IZR_lt; lia).
      apply (f_equal (λ x, x * IZR (usage_count r))%R) in H1.
      unfold Rdiv in H1.
      rewrite Rmult_assoc, Rinv_l, Rmult_1_r, Rmult_1_l in H1;
        [done | clear -H0; lra].
  - rewrite Hfr', Hc, Hf, !Z.add_0_l. apply ratio_same. lia.
Qed.

Lemma failed_feedback_failure_rate_witness :
  ∃ h' r', record_route_feedback (line_history mature_record young_record)
             [0; 1; 2]%Z 30 20 false = Ok h' ∧
    h' !! edge_key 0 1 = Some r' ∧
    (failure_rate mature_record < failure_rate r')%R.
Proof.
  destruct (failed_feedback_failure_rate
              (line_history mature_record young_record) [0; 1; 2]%Z 30 20 0 1)
    as (h' & r' & Hrun & Hr' & Hrate).
  - apply line_history_ok; [apply mature_record_ok | apply young_record_ok].
  - simpl. by left.
  - exists h', r'. split_and!; try done.
    assert (Hl : line_history mature_record young_record !! edge_key 0 1
                 = Some mature_record).
    { unfold line_history.
      rewrite lookup_insert_ne by apply not_eq_sym, line_keys_ne.
      apply lookup_insert_eq. }
    rewrite Hl in Hrate. apply Hrate. simpl. lra.
Defined.

(** C5, the statement as given fails: two failed routes over the edge
    [(0, 1)] from an empty store leave its [failure_rate] at 1 both times, so
    the second call, on a record with [usage_count = 1], does not raise it. *)
Lemma failed_feedback_rate_stays_1 :
  ∃ h1 h2 r1 r2,
    record_route_feedback ∅ [0; 1]%Z 30 20 false = Ok h1 ∧
    record_route_feedback h1 [0; 1]%Z 30 20 false = Ok h2 ∧
    h1 !! edge_key 0 1 = Some r1 ∧ h2 !! edge_key 0 1 = Some r2 ∧
    (usage_count r1 > 0)%Z ∧
    ¬ (failure_rate r1 < failure_rate r2)%R.
Proof.
  set (d := spec_delay 30 20).
  set (r1 := observe new_record d false).
  set (r2 := observe r1 d false).
  exists (<[edge_key 0 1 := r1]> ∅),
    (<[edge_key 0 1 := r2]> (<[edge_key 0 1 := r1]> ∅)), r1, r2.
  split_and!.
  - unfold record_route_feedback. rewrite feedback_delay_eq.
    cbn [mbind outcome_bind update_path].
    rewrite update_edge_eq; rewrite lookup_empty; done.
  - unfold record_route_feedback. rewrite feedback_delay_eq.
    cbn [mbind outcome_bind update_path].
    rewrite update_edge_eq; rewrite lookup_insert_eq; done.
  - apply lookup_insert_eq.
  - apply lookup_insert_eq.
  - simpl. lia.
  - change (failure_rate r1) with (1 / 1)%R.
    change (failure_rate r2) with (2 / 2)%R. lra.
Qed.

(** ** The priority queue *)

Lemma extract_min_perm x l m rest :
  extract_min x l = (m, rest) → m :: rest ≡ₚ x :: l.
Proof.
  revert x m rest. induction l as [|y l IH]; intros x m rest; simpl.
  - by intros [= <- <-].
  - destruct (extract_min y l) as [m' rest'] eqn:He.
    specialize (IH _ _ _ He).
    destruct (entry_ltb m' x); intros [= <- <-]; [|done].
    rewrite <- IH. apply perm_swap.
Qed.

(** ** The measure of the search loop *)

Lemma filter_unvisited_all (V : gset Z) (l : list Z) :
  (∀ u, u ∈ l → u ∉ V) → filter (λ u, u ∉ V) l = l.
Proof.
  induction l as [|x l IH]; [done|]. intros Hl.
  rewrite filter_cons, decide_True by (apply Hl; by left).
  rewrite IH; [done|]. intros u Hu. apply Hl. by right.
Qed.

Lemma filter_settle_notin (V : gset Z) (n : Z) (l : list Z) :
  n ∉ l → filter (λ u, u ∉ {[n]} ∪ V) l = filter (λ u, u ∉ V) l.
Proof.
  induction l as [|x l IH]; [done|]. intros Hn.
  apply not_elem_of_cons in Hn as [Hx Hl]. rewrite !filter_cons, IH by done.
  destruct (decide (x ∈ V)).
  - rewrite decide_False by set_solver.
    by rewrite decide_False by (intros ?; done).
  - rewrite decide_True by set_solver. by rewrite decide_True by done.
Qed.

(** Settling a node takes its outgoing edges out of the sum. *)
Lemma sum_filter_settle (f : Z → nat) (V : gset Z) (n : Z) (l : list Z) :
  NoDup l → n ∈ l → n ∉ V →
  sum_list_with f (filter (λ u, u ∉ {[n]} ∪ V) l) + f n =
  sum_list_with f (filter (λ u, u ∉ V) l).
Proof.
  intros Hnd Hin HnV.
  induction Hnd as [|x l Hx Hnd IH]; [by apply elem_of_nil in Hin|].
  rewrite !filter_cons. apply elem_of_cons in Hin as [<- | Hin].
  - rewrite decide_False by set_solver. rewrite decide_True by done. simpl.
    rewrite filter_settle_notin by done. lia.
  - assert (x ≠ n) by (intros ->; done).
    destruct (decide (x ∈ V)).
    + rewrite decide_False by set_solver.
      rewrite decide_False by (intros ?; done). by apply IH.
    + rewrite decide_True by set_solver. rewrite decide_True by done. simpl.
      specialize (IH Hin). lia.
Qed.

(** ** The search loop *)

Section SearchProofs.
Variable g : RoadGraph.
Variable vt : string.
Variable h : gmap string EdgeHistoryRecord.

Lemma follow_parents_None fuel (parents : gmap Z (option Z)) path :
  follow_parents fuel parents None path = Ok path.
Proof. by destruct fuel. Qed.

Lemma search_loop_empty fuel end_ st :
  pq st = [] → search_loop g vt h fuel end_ st = Ok st.
Proof. intros Hpq. destruct fuel; simpl; by rewrite Hpq. Qed.

Lemma search_loop_settle fuel end_ st c n pq' :
  heappop (pq st) = Some ((c, n), pq') → n ∉ visited st →
  search_loop g vt h (S fuel) end_ st =
    if decide (n = end_) then Ok (settle (set_pq st pq') n)
    else explore_neighbors vt h n (get_neighbors g n)
           (settle (set_pq st pq') n)
           ≫= search_loop g vt h fuel end_.
Proof.
  intros Hpop Hvis. cbn [search_loop]. rewrite Hpop.
  by rewrite decide_False by done.
Qed.

(** One outgoing edge to a node that is neither settled nor reached yet. *)
Lemma explore_single_edge st current cc v d md :
  v ∉ visited st →
  costs st !! current = Some (Finite cc) →
  costs st !! v = Some Infinity →
  ∃ stats',
    explore_neighbors vt h current [(v, d, md)] st =
      Ok (relax (set_stats st stats') current v
            (Finite (cc + adaptive_cost vt h current v d md))).
Proof.
  intros Hvis Hc Hv. cbn [explore_neighbors].
  rewrite decide_False by done.
  destruct (calculate_adaptive_cost _ _ _ _ _ _ _)
    as [edge_cost stats'] eqn:Hcost.
  apply (f_equal fst) in Hcost. rewrite calculate_adaptive_cost_fst in Hcost.
  simpl in Hcost. subst edge_cost. exists stats'.
  cbn [set_stats costs]. rewrite (getitem_Ok _ _ _ Hc).
  cbn [mbind outcome_bind]. rewrite (getitem_Ok _ _ _ Hv). done.
Qed.

Variable start : Z.

Lemma explore_neighbors_inv current neighbors : ∀ st,
  search_inv g start st → start ∈ visited st → current ∈ visited st →
  current ∈ universe g start → reachable g start current →
  (∀ x, x ∈ neighbors → x ∈ get_neighbors g current) →
  (∃ st', explore_neighbors vt h current neighbors st = Ok st' ∧
     search_inv g start st' ∧ visited st' = visited st ∧
     length (pq st') ≤ length (pq st) + length neighbors) ∨
  (explore_neighbors vt h current neighbors st = Raise KeyError ∧
     ¬ graph_closed g).
Proof.
  induction neighbors as [|[[v d] md] rest IH];
    intros st Hinv Hs Hcv Hcur Hreach Hsub.
  - left. exists st. simpl. split_and!; try done. lia.
  - assert (Hrest : ∀ x, x ∈ rest → x ∈ get_neighbors g current)
      by (intros x Hx; apply Hsub; by right).
    assert (Hedge : (v, d, md) ∈ get_neighbors g current)
      by (apply Hsub; by left).
    cbn [explore_neighbors].
    set (st1 := set_stats st (examine_edge (stats st) (current, v))).
    assert (Hinv1 : search_inv g start st1) by (destruct Hinv; by split).
    case_decide as Hvis.
    { destruct (IH st1 Hinv1 Hs Hcv Hcur Hreach Hrest)
        as [(st' & Hrun & Hinv' & Hv' & Hlen) | [Hrun Hnc]];
        [left | by right].
      exists st'. split_and!; try done. simpl in *. lia. }
    destruct (calculate_adaptive_cost vt h (stats st1) current v d md)
      as [edge_cost stats'] eqn:Hcost.
    set (st2 := set_stats st1 stats').
    assert (Hinv2 : search_inv g start st2) by (destruct Hinv; by split).
    assert (is_Some (costs st2 !! current)) as [cc Hcc].
    { apply elem_of_dom. by rewrite (inv_costs _ _ _ Hinv2). }
    rewrite (getitem_Ok _ _ _ Hcc). cbn [mbind outcome_bind].
    destruct (costs st2 !! v) as [cv|] eqn:Hlv.
    2:{ right. rewrite (getitem_KeyError _ _ Hlv). split; [done|].
        intros Hclosed. apply Hclosed in Hedge.
        apply not_elem_of_dom in Hlv. rewrite (inv_costs _ _ _ Hinv2) in Hlv.
        unfold universe in Hlv. set_solver. }
    rewrite (getitem_Ok _ _ _ Hlv). cbn [mbind outcome_bind].
    assert (Hv_univ : v ∈ universe g start).
    { rewrite <- (inv_costs _ _ _ Hinv2). apply elem_of_dom. by eexists. }
    assert (Hv_reach : reachable g start v) by (by eapply reachable_step).
    destruct (cost_ltb (cost_add cc edge_cost) cv).
    + set (st3 := relax st2 current v (cost_add cc edge_cost)).
      assert (Hinv3 : search_inv g start st3).
      { destruct Hinv2 as [Hc Hp Hst Hpar [rank Hrank]]. split; simpl.
        - rewrite dom_insert_L. simpl in Hc. rewrite Hc. set_solver.
        - intros c n Hin. apply elem_of_cons in Hin as [[= -> ->] | Hin];
            [done | by eapply Hp].
        - by left.
        - intros w. destruct (decide (w = v)) as [->|Hne].
          + right. split_and!; [|done|].
            * unfold universe in Hv_univ. simpl in Hvis. set_solver.
            * exists current. by rewrite lookup_insert_eq.
          + rewrite lookup_insert_ne by done. apply Hpar.
        - exists (λ x, if decide (x = v) then S (rank current) else rank x).
          intros w u. simpl in Hvis, Hrank.
          destruct (decide (w = v)) as [->|Hne].
          + rewrite lookup_insert_eq. intros [= <-]. split; [done|].
            rewrite decide_False by (intros ->; done). lia.
          + rewrite lookup_insert_ne by done. intros Hw.
            destruct (Hrank _ _ Hw) as [Hu Hlt]. split; [done|].
            rewrite decide_False by (intros ->; done). done. }
      destruct (IH st3 Hinv3 Hs Hcv Hcur Hreach Hrest)
        as [(st' & Hrun & Hinv' & Hv' & Hlen) | [Hrun Hnc]];
        [left | by right].
      exists st'. split_and!; try done. simpl in *. lia.
    + destruct (IH st2 Hinv2 Hs Hcv Hcur Hreach Hrest)
        as [(st' & Hrun & Hinv' & Hv' & Hlen) | [Hrun Hnc]];
        [left | by right].
      exists st'. split_and!; try done. simpl in *. lia.
Qed.

Lemma search_loop_inv end_ : ∀ fuel st,
  search_inv g start st → pending g start st ≤ fuel →
  (∃ st', search_loop g vt h fuel end_ st = Ok st' ∧ search_inv g start st') ∨
  (search_loop g vt h fuel end_ st = Raise KeyError ∧ ¬ graph_closed g).
Proof.
  induction fuel as [|fuel IH]; intros st Hinv Hfuel.
  - unfold pending in Hfuel.
    destruct (pq st) as [|x l] eqn:Hpq; simpl in Hfuel; [|lia].
    left. exists st. simpl. by rewrite Hpq.
  - cbn [search_loop].
    destruct (pq st) as [|x l] eqn:Hpq; [left; by exists st|].
    cbn [heappop]. destruct (extract_min x l) as [[c n] pq'] eqn:Hmin.
    apply extract_min_perm in Hmin.
    assert (Hlen : length pq' = length l).
    { apply Permutation_length in Hmin. simpl in Hmin. lia. }
    assert (Hn : (c, n) ∈ pq st).
    { rewrite Hpq, <- Hmin. by left. }
    assert (Hsub : ∀ c' n', (c', n') ∈ pq' → (c', n') ∈ pq st).
    { intros c' n' Hin. rewrite Hpq, <- Hmin. by right. }
    destruct (inv_pq _ _ _ Hinv _ _ Hn) as [Hnu Hnr].
    set (st1 := set_pq st pq').
    assert (Hinv1 : search_inv g start st1).
    { destruct Hinv as [Hc Hp Hst Hpar Hrank]. split; simpl; try done.
      - intros c' n' Hin. eapply Hp, Hsub, Hin.
      - destruct Hst as [Hst|Hst]; [by left | right].
        intros c' n' Hin. eapply Hst, Hsub, Hin. }
    case_decide as Hvis.
    { apply IH; [done|]. unfold pending in *. rewrite Hpq in Hfuel.
      simpl in *. lia. }
    set (st2 := settle st1 n).
    assert (Hs2 : start ∈ visited st2).
    { simpl. destruct (inv_start _ _ _ Hinv) as [Hst|Hst]; [set_solver|].
      rewrite (Hst _ _ Hn). set_solver. }
    assert (Hinv2 : search_inv g start st2).
    { destruct Hinv1 as [Hc Hp Hst Hpar [rank Hrank]].
      split; simpl; try done; [by left|].
      exists rank. intros w u Hw. destruct (Hrank _ _ Hw). set_solver. }
    assert (Hn2 : n ∈ visited st2) by (simpl; set_solver).
    case_decide as Hend; [left; by exists st2|].
    destruct (explore_neighbors_inv n (get_neighbors g n) st2 Hinv2 Hs2 Hn2
                Hnu Hnr ltac:(done))
      as [(st' & Hrun & Hinv' & Hv' & Hlen') | [Hrun Hnc]].
    2:{ right. by rewrite Hrun. }
    rewrite Hrun. cbn [mbind outcome_bind]. apply IH; [done|].
    unfold pending in *. rewrite Hv'. rewrite Hpq in Hfuel. simpl in *.
    pose proof (sum_filter_settle (out_degree g) (visited st) n
      (elements (universe g start)) (NoDup_elements _)
      ltac:(by apply elem_of_elements) Hvis) as Hsum.
    unfold out_degree in *. lia.
Qed.

Lemma initial_state_inv : search_inv g start (initial_state g start).
Proof.
  split; simpl.
  - rewrite dom_insert_L, dom_gset_to_gmap. done.
  - intros c n Hin. apply list_elem_of_singleton in Hin as [= -> ->].
    split; [unfold universe; set_solver | constructor].
  - right. intros c n Hin.
    by apply list_elem_of_singleton in Hin as [= -> ->].
  - intros v. by left.
  - exists (λ _, 0). intros v u Hv.
    by apply lookup_gset_to_gmap_Some in Hv as [_ [=]].
Qed.

Lemma initial_state_pending :
  pending g start (initial_state g start) ≤ search_fuel g start.
Proof.
  unfold pending, search_fuel, universe, initial_state.
  cbn [pq visited length]. rewrite filter_unvisited_all by set_solver. lia.
Qed.

(** The search loop of [find_optimal_path] never runs out of fuel: it ends
    with a final state or, on a graph with an edge that leaves its node set,
    with a [KeyError]. *)
Lemma search_terminates end_ :
  (∃ st', search_loop g vt h (search_fuel g start) end_
            (initial_state g start) = Ok st' ∧ search_inv g start st') ∨
  (search_loop g vt h (search_fuel g start) end_ (initial_state g start)
     = Raise KeyError ∧ ¬ graph_closed g).
Proof.
  apply search_loop_inv;
    [apply initial_state_inv | apply initial_state_pending].
Qed.
End SearchProofs.

(** ** The walk along the parent links *)

Lemma follow_parents_out_of_fuel (parents : gmap Z (option Z)) fuel :
  ∀ c path,
    follow_parents fuel parents (Some c) path = OutOfFuel →
    ∃ l, length l = fuel ∧ chain_from parents c l.
Proof.
  induction fuel as [|fuel IH]; intros c path Hrun.
  - by exists [].
  - cbn [follow_parents] in Hrun. unfold getitem in Hrun.
    destruct (parents !! c) as [[y|]|] eqn:Hc; cbn [mbind outcome_bind] in Hrun.
    + destruct (IH _ _ Hrun) as (l & Hlen & Hl).
      exists (c :: l). simpl. split; [by rewrite Hlen|]. split; [done|].
      by exists y.
    + by rewrite follow_parents_None in Hrun.
    + done.
Qed.

Lemma chain_from_ranked (parents : gmap Z (option Z)) visited rank l :
  ranked parents visited rank →
  ∀ c, chain_from parents c l →
    NoDup l ∧ ∀ x, x ∈ l → x ∈ dom parents ∧ rank x ≤ rank c.
Proof.
  intros Hrank. induction l as [|x l IH]; intros c Hl.
  - split; [constructor|]. intros x Hx. by apply elem_of_nil in Hx.
  - destruct Hl as (-> & y & Hc & Hl). destruct (IH _ Hl) as [Hnd Hin].
    destruct (Hrank _ _ Hc) as [_ Hlt]. split.
    + constructor; [|done]. intros Hcl. apply Hin in Hcl as [_ Hle]. lia.
    + intros x Hx. apply elem_of_cons in Hx as [-> | Hx].
      * split; [|lia]. apply elem_of_dom. by eexists.
      * destruct (Hin _ Hx). split; [done | lia].
Qed.

Lemma NoDup_keys_length (parents : gmap Z (option Z)) (l : list Z) :
  NoDup l → (∀ x, x ∈ l → x ∈ dom parents) → length l ≤ size parents.
Proof.
  intros Hnd Hin. rewrite <- size_dom. unfold size, set_size. simpl.
  apply submseteq_length, NoDup_submseteq; [done|].
  intros x Hx. apply elem_of_elements. by apply Hin.
Qed.

Lemma reconstruct_path_ends (parents : gmap Z (option Z)) visited rank
    start end_ :
  ranked parents visited rank →
  reconstruct_path parents start end_ ≠ OutOfFuel.
Proof.
  intros Hrank. unfold reconstruct_path, getitem.
  destruct (parents !! end_) as [pe|]; [|done]. cbn [mbind outcome_bind].
  destruct (bool_decide (pe = None) && bool_decide (end_ ≠ start)); [done|].
  destruct (follow_parents (S (size parents)) parents (Some end_) [])
    as [path| |] eqn:Hrun; [done | done |].
  apply follow_parents_out_of_fuel in Hrun as (l & Hlen & Hl).
  destruct (chain_from_ranked _ _ _ _ Hrank _ Hl) as [Hnd Hin].
  pose proof (NoDup_keys_length parents l Hnd (λ x Hx, proj1 (Hin x Hx))).
  lia.
Qed.

(** [find_optimal_path] returns or raises: neither loop runs out of fuel. *)
Lemma find_optimal_path_total g vt h start end_ :
  find_optimal_path g vt h start end_ ≠ OutOfFuel.
Proof.
  unfold find_optimal_path.
  destruct (search_terminates g vt h start end_)
    as [(st & -> & Hinv) | [-> _]]; [|done].
  cbn [mbind outcome_bind].
  destruct (inv_rank _ _ _ Hinv) as [rank Hrank].
  pose proof (reconstruct_path_ends _ _ _ start end_ Hrank) as Hrec.
  destruct (reconstruct_path (parents st) start end_) as [path| |];
    [|done|done].
  cbn [mbind outcome_bind]. unfold getitem.
  destruct (costs st !! end_); [|done]. cbn [mbind outcome_bind].
  by destruct path.
Qed.

(** ** Results of the search *)

Lemma line_graph_closed : graph_closed line_graph.
Proof.
  intros u v d md. simpl. repeat case_decide.
  - intros Hin. apply list_elem_of_singleton in Hin as [= -> _ _]. set_solver.
  - intros Hin. apply list_elem_of_singleton in Hin as [= -> _ _]. set_solver.
  - intros Hin. by apply elem_of_nil in Hin.
Qed.

Lemma line_graph_reachable_from_2 v : reachable line_graph 2 v → v = 2%Z.
Proof.
  induction 1 as [|u v d md _ -> Hin]; [done|].
  simpl in Hin. by apply elem_of_nil in Hin.
Qed.

(** C6. On a graph whose edges lead to its own nodes, when [end] is a node
    that no walk from [start] reaches, [find_optimal_path] returns the empty
    path with cost [+infinity] and raises nothing; [_reconstruct_path] gives
    the empty path as soon as [end] has no parent and differs from [start],
    without looking at the cost table. *)
Theorem unreachable_goal_no_path g vt h start end_ :
  graph_closed g → end_ ∈ nodes g → ¬ reachable g start end_ →
  (∃ stats, find_optimal_path g vt h start end_ = Ok ([], Infinity, stats)) ∧
  (∀ parents : gmap Z (option Z),
     parents !! end_ = Some None → reconstruct_path parents start end_ = Ok []).
Proof.
  intros Hclosed Hend Hunreach.
  assert (Hne : end_ ≠ start) by (intros ->; apply Hunreach; constructor).
  assert (Hrec : ∀ parents : gmap Z (option Z),
            parents !! end_ = Some None →
            reconstruct_path parents start end_ = Ok []).
  { intros parents Hp. unfold reconstruct_path. rewrite (getitem_Ok _ _ _ Hp).
    cbn [mbind outcome_bind].
    rewrite bool_decide_eq_true_2 by done.
    by rewrite bool_decide_eq_true_2 by done. }
  split; [|done]. unfold find_optimal_path.
  destruct (search_terminates g vt h start end_)
    as [(st & -> & Hinv) | [_ Hnc]]; [|done].
  cbn [mbind outcome_bind]. exists (stats st).
  assert (Hp : parents st !! end_ = Some None).
  { destruct (inv_parents _ _ _ Hinv end_) as [-> | (_ & Hr & _)]; [|done].
    by apply lookup_gset_to_gmap_Some. }
  rewrite (Hrec _ Hp). cbn [mbind outcome_bind].
  assert (is_Some (costs st !! end_)) as [c Hc].
  { apply elem_of_dom. rewrite (inv_costs _ _ _ Hinv). unfold universe.
    set_solver. }
  by rewrite (getitem_Ok _ _ _ Hc).
Qed.

Lemma unreachable_goal_no_path_witness :
  ∃ stats, find_optimal_path line_graph "boda" ∅ 2 0 = Ok ([], Infinity, stats).
Proof.
  apply (unreachable_goal_no_path line_graph "boda" ∅ 2 0).
  - apply line_graph_closed.
  - simpl. set_solver.
  - intros Hr. by apply line_graph_reachable_from_2 in Hr.
Defined.

(** C7, as amended. The source has no check of its own for unknown nodes.
    When [end] is not a node of the graph the call fails with the [KeyError]
    of a table lookup, never with a no-path result.  When only [start] is
    unknown nothing fails: the search runs from [start] over the neighbors the
    graph gives for it, and with none of them and a known [end] it returns
    the no-path result. *)
Theorem unknown_node_outcome g vt h start end_ :
  (end_ ∉ nodes g → find_optimal_path g vt h start end_ = Raise KeyError) ∧
  (start ∉ nodes g → end_ ∈ nodes g → get_neighbors g start = [] →
   ∃ stats, find_optimal_path g vt h start end_ = Ok ([], Infinity, stats)).
Proof.
  split.
  - intros Hend. unfold find_optimal_path.
    destruct (search_terminates g vt h start end_)
      as [(st & -> & Hinv) | [-> _]]; [|done].
    cbn [mbind outcome_bind].
    assert (Hp : parents st !! end_ = None).
    { destruct (inv_parents _ _ _ Hinv end_) as [-> | (Hin & _)]; [|done].
      by apply lookup_gset_to_gmap_None. }
    unfold reconstruct_path. by rewrite (getitem_KeyError _ _ Hp).
  - intros Hstart Hend Hnb. unfold find_optimal_path, search_fuel.
    assert (Hne : start ≠ end_) by (intros ->; done).
    erewrite search_loop_settle; [|reflexivity|set_solver].
    rewrite decide_False by done. rewrite Hnb.
    cbn [explore_neighbors mbind outcome_bind].
    rewrite search_loop_empty by done. cbn [mbind outcome_bind].
    eexists. unfold reconstruct_path, initial_state.
    cbn [settle set_pq parents costs stats].
    assert (Hp : gset_to_gmap (None : option Z) (nodes g) !! end_ = Some None)
      by (by apply lookup_gset_to_gmap_Some).
    rewrite (getitem_Ok _ _ _ Hp). cbn [mbind outcome_bind].
    rewrite bool_decide_eq_true_2 by done.
    rewrite bool_decide_eq_true_2 by done. cbn [andb mbind outcome_bind].
    assert (Hc : <[start := Finite 0]> (gset_to_gmap Infinity (nodes g))
                   !! end_ = Some Infinity).
    { rewrite lookup_insert_ne by done. by apply lookup_gset_to_gmap_Some. }
    rewrite (getitem_Ok _ _ _ Hc). reflexivity.
Qed.

Lemma unknown_node_outcome_witness :
  find_optimal_path line_graph "boda" ∅ 0 7 = Raise KeyError ∧
  ∃ stats,
    find_optimal_path isolated_node_graph "boda" ∅ 0 1 =
      Ok ([], Infinity, stats).
Proof.
  split.
  - apply (proj1 (unknown_node_outcome line_graph "boda" ∅ 0 7)).
    simpl. set_solver.
  - apply (proj2 (unknown_node_outcome isolated_node_graph "boda" ∅ 0 1)).
    + simpl. set_solver.
    + simpl. set_solver.
    + reflexivity.
Defined.

(** C7, the statement as given fails: the start node [0] is not a node of the
    graph, and the call returns the no-path result. *)
Lemma unknown_start_gives_no_path :
  (0%Z ∉ nodes isolated_node_graph) ∧
  ∃ stats,
    find_optimal_path isolated_node_graph "boda" ∅ 0 1 =
      Ok ([], Infinity, stats).
Proof.
  split.
  - simpl. set_solver.
  - eexists. reflexivity.
Qed.

(** C10. For a node [s] of the graph, any history and any vehicle class,
    [find_optimal_path(s, s)] returns the path [[s]] with cost 0: the goal has
    no parent link, and [_reconstruct_path] still returns it. *)
Theorem goal_is_start g vt h s :
  s ∈ nodes g →
  find_optimal_path g vt h s s =
    Ok ([s], Finite 0,
        {| nodes_explored := 1; edges_examined := 0; path_length := 1;
           history_influenced := 0; explored_edges := [] |}).
Proof.
  intros Hs. unfold find_optimal_path, search_fuel.
  erewrite search_loop_settle; [|reflexivity|set_solver].
  rewrite decide_True by done.
  cbn [mbind outcome_bind settle set_pq parents costs stats].
  assert (Hp : gset_to_gmap (None : option Z) (nodes g) !! s = Some None)
    by (by apply lookup_gset_to_gmap_Some).
  unfold reconstruct_path, initial_state. cbn [parents costs stats].
  rewrite (getitem_Ok _ _ _ Hp). cbn [mbind outcome_bind].
  rewrite bool_decide_eq_true_2 by done.
  rewrite bool_decide_eq_false_2 by (intros Hne; by apply Hne).
  cbn [andb follow_parents]. rewrite (getitem_Ok _ _ _ Hp).
  cbn [mbind outcome_bind app]. rewrite follow_parents_None.
  unfold getitem. rewrite lookup_insert_eq. reflexivity.
Qed.

Lemma goal_is_start_witness :
  find_optimal_path line_graph "bajaji"
    (line_history mature_record young_record) 1 1 =
    Ok ([1%Z], Finite 0,
        {| nodes_explored := 1; edges_examined := 0; path_length := 1;
           history_influenced := 0; explored_edges := [] |}).
Proof.
  apply (goal_is_start line_graph "bajaji"
           (line_history mature_record young_record) 1).
  simpl. set_solver.
Defined.

(** ** The concrete scenario *)

(** The search on the line graph, for any history: the path is [[0; 1; 2]]
    and the cost is the sum of the two edge costs. *)
Lemma line_graph_search vt h :
  ∃ stats,
    find_optimal_path line_graph vt h 0 2 =
      Ok ([0; 1; 2]%Z,
          Finite (0 + adaptive_cost vt h 0 1 10 line_metadata
                    + adaptive_cost vt h 1 2 10 line_metadata),
          stats).
Proof.
  unfold find_optimal_path.
  assert (Hfuel : search_fuel line_graph 0 = 3) by reflexivity.
  rewrite Hfuel.
  erewrite search_loop_settle; [|reflexivity|set_solver].
  rewrite decide_False by done.
  set (st1 := settle _ _).
  destruct (explore_single_edge vt h st1 0 0 1 10 line_metadata) as [s1 Hs1].
  { subst st1; simpl. set_solver. }
  { reflexivity. }
  { reflexivity. }
  change (get_neighbors line_graph 0) with [(1%Z, 10%R, line_metadata)].
  rewrite Hs1. cbn [mbind outcome_bind]. clear Hs1.
  set (st2 := relax _ _ _ _).
  erewrite search_loop_settle; [|reflexivity|subst st2 st1; simpl; set_solver].
  rewrite decide_False by done.
  set (st3 := settle _ _).
  destruct (explore_single_edge vt h st3 1
              (0 + adaptive_cost vt h 0 1 10 line_metadata) 2 10 line_metadata)
    as [s2 Hs2].
  { subst st3 st2 st1; simpl. set_solver. }
  { reflexivity. }
  { reflexivity. }
  change (get_neighbors line_graph 1) with [(2%Z, 10%R, line_metadata)].
  rewrite Hs2. cbn [mbind outcome_bind]. clear Hs2.
  set (st4 := relax _ _ _ _).
  erewrite search_loop_settle;
    [|reflexivity|subst st4 st3 st2 st1; simpl; set_solver].
  rewrite decide_True by done. cbn [mbind outcome_bind].
  eexists. reflexivity.
Qed.

Lemma line_feedback_first a e s :
  record_route_feedback ∅ [0; 1; 2]%Z a e s =
    Ok (line_history (observe new_record (spec_delay a e) s)
                     (observe new_record (spec_delay a e) s)).
Proof.
  unfold record_route_feedback. rewrite feedback_delay_eq.
  cbn [mbind outcome_bind update_path].
  rewrite update_edge_eq by (by rewrite lookup_empty).
  cbn [mbind outcome_bind]. rewrite lookup_empty.
  cbn [default from_option Datatypes.id].
  assert (Hl : <[edge_key 0 1 := observe new_record (spec_delay a e) s]>
                 (∅ : gmap string EdgeHistoryRecord) !! edge_key 1 2 = None)
    by (rewrite lookup_insert_ne by apply line_keys_ne; apply lookup_empty).
  rewrite update_edge_eq; rewrite Hl; done.
Qed.

Lemma line_feedback_next r01 r12 a e s :
  (0 ≤ usage_count r01)%Z → (0 ≤ usage_count r12)%Z →
  record_route_feedback (line_history r01 r12) [0; 1; 2]%Z a e s =
    Ok (line_history (observe r01 (spec_delay a e) s)
                     (observe r12 (spec_delay a e) s)).
Proof.
  intros H01 H12. pose proof line_keys_ne as Hne.
  unfold record_route_feedback. rewrite feedback_delay_eq.
  cbn [mbind outcome_bind update_path]. unfold line_history.
  assert (Hl1 : <[edge_key 1 2 := r12]> (<[edge_key 0 1 := r01]> ∅)
                  !! edge_key 0 1 = Some r01)
    by (by rewrite lookup_insert_ne, lookup_insert_eq).
  rewrite update_edge_eq; rewrite Hl1; [|done].
  cbn [mbind outcome_bind default from_option Datatypes.id].
  set (r01' := observe r01 _ _).
  assert (Hl2 : <[edge_key 0 1 := r01']>
                  (<[edge_key 1 2 := r12]> (<[edge_key 0 1 := r01]> ∅))
                  !! edge_key 1 2 = Some r12)
    by (by rewrite lookup_insert_ne, lookup_insert_eq).
  rewrite update_edge_eq; rewrite Hl2; [|done].
  cbn [default from_option Datatypes.id].
  f_equal; apply map_eq; intros k;
    rewrite !lookup_insert; repeat case_decide; congruence.
Qed.

Lemma observe_total_delay_pos r d s :
  (0 <= total_delay r)%R → (0 < d)%R → (0 < total_delay (observe r d s))%R.
Proof.
  intros Ht Hd. simpl. pose proof (decay_at_pos (usage_count r + 1)) as Hp.
  assert (0 <= total_delay r * decay_at (usage_count r + 1))%R
    by (apply Rmult_le_pos; lra).
  lra.
Qed.

Lemma boda_static_line : static_cost "boda" 10 line_metadata = 10%R.
Proof.
  unfold static_cost, vehicle_penalty; simpl.
  rewrite decide_True by lra. lra.
Qed.

Lemma historical_penalty_gt_1 r :
  usage_count r = 3%Z → (0 < average_delay r)%R → (0 <= failure_rate r)%R →
  (1 < historical_penalty r)%R.
Proof.
  intros Hn Ha Hf. unfold historical_penalty, HISTORICAL_WEIGHT. rewrite Hn.
  rewrite Rmin_left by lra.
  assert (0 < 0.3 * (3 / 10.0) * (average_delay r + failure_rate r * 2.0))%R;
    [|lra].
  apply Rmult_lt_0_compat; lra.
Qed.

(** C1. On the line graph [0 → 1 → 2] with [base_distance = 10],
    [traffic_factor = 1.0] and [quality = 1.0] on both edges, for the vehicle
    ['boda'] and an empty history, [find_optimal_path(0, 2)] returns the path
    [[0; 1; 2]] with cost 20.  After three calls
    [record_route_feedback([0, 1, 2], 30, 20, True)], which bring the
    [usage_count] of both edges to 3, it returns the same path with a cost
    above 20. *)
Theorem line_graph_scenario :
  (∃ stats, find_optimal_path line_graph "boda" ∅ 0 2 =
              Ok ([0; 1; 2]%Z, Finite 20, stats)) ∧
  ∃ h1 h2 h3,
    record_route_feedback ∅ [0; 1; 2]%Z 30 20 true = Ok h1 ∧
    record_route_feedback h1 [0; 1; 2]%Z 30 20 true = Ok h2 ∧
    record_route_feedback h2 [0; 1; 2]%Z 30 20 true = Ok h3 ∧
    (∃ r01 r12, h3 !! edge_key 0 1 = Some r01 ∧ h3 !! edge_key 1 2 = Some r12 ∧
       usage_count r01 = 3%Z ∧ usage_count r12 = 3%Z) ∧
    ∃ total_cost stats,
      find_optimal_path line_graph "boda" h3 0 2 =
        Ok ([0; 1; 2]%Z, Finite total_cost, stats) ∧
      (20 < total_cost)%R.
Proof.
  split.
  - destruct (line_graph_search "boda" ∅) as [stats Hrun]. exists stats.
    rewrite Hrun, !adaptive_cost_empty, boda_static_line.
    by replace (0 + 10 + 10)%R with 20%R by lra.
  - set (d := spec_delay 30 20).
    assert (Hd : (0 < d)%R).
    { subst d. unfold spec_delay. rewrite decide_True by lra.
      eapply Rlt_le_trans; [|apply Rmax_r]. lra. }
    set (r1 := observe new_record d true).
    set (r2 := observe r1 d true).
    set (r3 := observe r2 d true).
    exists (line_history r1 r1), (line_history r2 r2), (line_history r3 r3).
    split_and!.
    + apply line_feedback_first.
    + by apply line_feedback_next.
    + by apply line_feedback_next.
    + exists r3, r3. unfold line_history.
      rewrite lookup_insert_ne, !lookup_insert_eq
        by apply not_eq_sym, line_keys_ne. done.
    + destruct (line_graph_search "boda" (line_history r3 r3)) as [stats Hrun].
      eexists _, stats. split; [exact Hrun|].
      assert (Ht1 : (0 < total_delay r1)%R)
        by (apply observe_total_delay_pos; [simpl; lra | done]).
      assert (Ht2 : (0 < total_delay r2)%R)
        by (apply observe_total_delay_pos; [lra | done]).
      assert (Ht3 : (0 < total_delay r3)%R)
        by (apply observe_total_delay_pos; [lra | done]).
      assert (Havg : (0 < average_delay r3)%R).
      { change (average_delay r3) with (total_delay r3 / 3)%R. lra. }
      assert (Hfr : (0 <= failure_rate r3)%R).
      { change (failure_rate r3) with (0 / 3)%R. lra. }
      pose proof (historical_penalty_gt_1 r3 eq_refl Havg Hfr) as Hpen.
      rewrite (adaptive_cost_mature _ _ _ _ _ _ r3),
        (adaptive_cost_mature _ _ _ _ _ _ r3).
      * rewrite boda_static_line. lra.
      * unfold line_history. apply lookup_insert_eq.
      * done.
      * unfold line_history.
        rewrite lookup_insert_ne by (apply not_eq_sym, line_keys_ne).
        apply lookup_insert_eq.
      * done.
Qed.

(** * Further properties *)

(** ** The adaptive edge cost: bounds and monotonicity *)

Lemma historical_penalty_bounds r :
  (MIN_SAMPLES ≤ usage_count r)%Z →
  (0 <= average_delay r)%R → (0 <= failure_rate r)%R →
  (1 <= historical_penalty r
     <= 1 + HISTORICAL_WEIGHT * (average_delay r + 2 * failure_rate r))%R ∧
  ((10 ≤ usage_count r)%Z →
   historical_penalty r =
     (1 + HISTORICAL_WEIGHT * (average_delay r + 2 * failure_rate r))%R).
Proof.
  intros Hn Ha Hf. unfold historical_penalty, HISTORICAL_WEIGHT.
  assert (H3 : (3 <= IZR (usage_count r))%R) by (by apply IZR_le).
  set (c := Rmin (IZR (usage_count r) / 10.0) 1.0).
  assert (Hc : (0 <= c <= 1)%R).
  { subst c. pose proof (Rmin_r (IZR (usage_count r) / 10.0) 1.0).
    split; [apply Rmin_glb; lra | lra]. }
  split.
  - split; nra.
  - intros H10. apply IZR_le in H10.
    assert (c = 1.0%R) as -> by (subst c; apply Rmin_right; lra). lra.
Qed.

(** X6. For a mature record (at least [MIN_SAMPLES] observations) with
    [average_delay ≥ 0] and [failure_rate ≥ 0], the adaptive cost lies between
    the static cost and the static cost times
    [1 + HISTORICAL_WEIGHT * (average_delay + 2 * failure_rate)], and equals
    that upper bound from ten observations on, where the confidence is 1. *)
Theorem adaptive_cost_history_bounds vt h stats u v d md r :
  (0 <= d)%R → (0 <= default 1.0 (md_traffic_factor md))%R →
  h !! edge_key u v = Some r → (MIN_SAMPLES ≤ usage_count r)%Z →
  (0 <= average_delay r)%R → (0 <= failure_rate r)%R →
  let cost := (calculate_adaptive_cost vt h stats u v d md).1 in
  (static_cost vt d md <= cost
     <= static_cost vt d md
        * (1 + HISTORICAL_WEIGHT * (average_delay r + 2 * failure_rate r)))%R ∧
  ((10 ≤ usage_count r)%Z →
   cost = (static_cost vt d md
           * (1 + HISTORICAL_WEIGHT * (average_delay r + 2 * failure_rate r)))%R).
Proof.
  intros Hd Ht Hr Hn Ha Hf cost. subst cost.
  rewrite calculate_adaptive_cost_fst, (adaptive_cost_mature _ _ _ _ _ _ r) by done.
  destruct (historical_penalty_bounds r Hn Ha Hf) as [[Hlo Hhi] Hsat].
  assert (Hb : (0 <= static_cost vt d md)%R).
  { unfold static_cost. pose proof (vehicle_penalty_pos vt (default 1.0%R (md_quality md))).
    apply Rmult_le_pos; [apply Rmult_le_pos|]; lra. }
  split; [split; nra|]. intros H10. by rewrite Hsat.
Qed.

(** X7. A worse history never lowers the cost: between two mature records
    for the same edge, more observations, a larger [average_delay] and a
    larger [failure_rate] give a cost at least as large. *)
Theorem adaptive_cost_monotone vt h1 h2 s1 s2 u v d md r1 r2 :
  (0 <= d)%R → (0 <= default 1.0 (md_traffic_factor md))%R →
  h1 !! edge_key u v = Some r1 → h2 !! edge_key u v = Some r2 →
  (MIN_SAMPLES ≤ usage_count r1 ≤ usage_count r2)%Z →
  (0 <= average_delay r1 <= average_delay r2)%R →
  (0 <= failure_rate r1 <= failure_rate r2)%R →
  ((calculate_adaptive_cost vt h1 s1 u v d md).1
   <= (calculate_adaptive_cost vt h2 s2 u v d md).1)%R.
Proof.
  intros Hd Ht Hr1 Hr2 Hn Ha Hf.
  rewrite !calculate_adaptive_cost_fst.
  rewrite (adaptive_cost_mature _ _ _ _ _ _ r1), (adaptive_cost_mature _ _ _ _ _ _ r2)
    by (done || lia).
  assert (Hb : (0 <= static_cost vt d md)%R).
  { unfold static_cost. pose proof (vehicle_penalty_pos vt (default 1.0%R (md_quality md))).
    apply Rmult_le_pos; [apply Rmult_le_pos|]; lra. }
  apply Rmult_le_compat_l; [done|].
  unfold historical_penalty, HISTORICAL_WEIGHT.
  assert (H3 : (3 <= IZR (usage_count r1))%R) by (apply IZR_le; unfold MIN_SAMPLES in Hn; lia).
  assert (H12 : (IZR (usage_count r1) <= IZR (usage_count r2))%R) by (apply IZR_le; lia).
  set (c1 := Rmin (IZR (usage_count r1) / 10.0) 1.0).
  set (c2 := Rmin (IZR (usage_count r2) / 10.0) 1.0).
  assert (Hc1 : (0 <= c1)%R) by (subst c1; apply Rmin_glb; lra).
  assert (Hc : (c1 <= c2)%R).
  { subst c1 c2.
    pose proof (Rmin_l (IZR (usage_count r1) / 10.0) 1.0).
    pose proof (Rmin_r (IZR (usage_count r1) / 10.0) 1.0).
    apply Rmin_glb; lra. }
  set (x1 := (average_delay r1 + failure_rate r1 * 2.0)%R).
  set (x2 := (average_delay r2 + failure_rate r2 * 2.0)%R).
  assert (0 <= x1 <= x2)%R by (subst x1 x2; lra).
  assert (c1 * x1 <= c2 * x2)%R by (apply Rmult_le_compat; lra).
  nra.
Qed.

(** X8. The static cost of an edge: a road of better quality never costs
    more; no vehicle class is cheaper than ['boda']; the cost lies between
    [base_distance * traffic_factor] and 1.8 times it. *)
Theorem static_cost_ordering vt d md md' :
  (0 <= d)%R → (0 <= default 1.0 (md_traffic_factor md))%R →
  md_traffic_factor md' = md_traffic_factor md →
  (default 1.0 (md_quality md) <= default 1.0 (md_quality md'))%R →
  (static_cost vt d md' <= static_cost vt d md)%R ∧
  (static_cost "boda" d md <= static_cost vt d md)%R ∧
  (d * default 1.0 (md_traffic_factor md) <= static_cost "boda" d md)%R ∧
  (static_cost vt d md <= 1.8 * (d * default 1.0 (md_traffic_factor md)))%R.
Proof.
  intros Hd Ht Htf Hq. unfold static_cost. rewrite Htf.
  set (b := (d * default 1.0 (md_traffic_factor md))%R).
  assert (Hb : (0 <= b)%R) by (subst b; apply Rmult_le_pos; lra).
  set (q := default 1.0%R (md_quality md)) in *.
  set (q' := default 1.0%R (md_quality md')) in *.
  assert (H0 : (vehicle_penalty vt q' <= vehicle_penalty vt q)%R).
  { unfold vehicle_penalty. repeat case_decide; lra. }
  assert (H1 : (1 <= vehicle_penalty "boda" q <= vehicle_penalty vt q)%R).
  { unfold vehicle_penalty. repeat case_decide; try congruence; lra. }
  assert (H2 : (vehicle_penalty vt q <= 1.8)%R).
  { unfold vehicle_penalty. repeat case_decide; lra. }
  split_and!; nra.
Qed.

(** ** Feedback ingestion: counts, errors and bounds *)

Lemma bind_Ok_inv {A B} (m : outcome A) (f : A → outcome B) b :
  m ≫= f = Ok b → ∃ a, m = Ok a ∧ f a = Ok b.
Proof. destruct m as [a| |]; [|done..]. intros H. by exists a. Qed.

Lemma update_record_Ok_inv r d s r' :
  update_record r d s = Ok r' → r' = observe r d s.
Proof.
  unfold update_record, decay_of, py_div. intros H.
  repeat case_decide; simplify_eq/=. done.
Qed.

Lemma update_edge_Ok_inv h d s u v h' :
  update_edge h d s u v = Ok h' →
  h' = <[edge_key u v := observe (default new_record (h !! edge_key u v)) d s]> h.
Proof.
  unfold update_edge. intros H.
  destruct (h !! edge_key u v) as [r|] eqn:Hr; simpl in *.
  - unfold getitem in H. rewrite Hr in H. cbn [mbind outcome_bind] in H.
    apply bind_Ok_inv in H as (r' & Hr' & [= <-]).
    by apply update_record_Ok_inv in Hr' as ->.
  - unfold getitem in H. rewrite lookup_insert_eq in H.
    cbn [mbind outcome_bind] in H.
    apply bind_Ok_inv in H as (r' & Hr' & [= <-]).
    apply update_record_Ok_inv in Hr' as ->. by rewrite insert_insert_eq.
Qed.

Lemma edge_occurrences_short k path :
  length path < 2 → edge_occurrences k path = 0%Z.
Proof. destruct path as [|u [|v rest]]; simpl; [done | done | lia]. Qed.

Lemma edge_occurrences_cons k u v rest :
  edge_occurrences k (u :: v :: rest) =
    ((if decide (edge_key u v = k) then 1 else 0)
     + edge_occurrences k (v :: rest))%Z.
Proof.
  unfold edge_occurrences. cbn [path_edges]. rewrite filter_cons. simpl.
  case_decide; simpl; lia.
Qed.

Lemma edge_occurrences_nonneg k path : (0 ≤ edge_occurrences k path)%Z.
Proof. unfold edge_occurrences. lia. Qed.

Lemma update_path_counts path : ∀ h d s h',
  update_path path h d s = Ok h' →
  ∀ k,
    (edge_occurrences k path = 0%Z → h' !! k = h !! k) ∧
    ((0 < edge_occurrences k path)%Z →
     ∃ r', h' !! k = Some r' ∧
       usage_count r' =
         (usage_count (default new_record (h !! k))
          + edge_occurrences k path)%Z ∧
       total_failures r' =
         (total_failures (default new_record (h !! k))
          + if s then 0 else edge_occurrences k path)%Z).
Proof.
  induction path as [|u|u v rest IH] using path_ind2; intros h d s h' Hrun k.
  - injection Hrun as <-. rewrite edge_occurrences_short by (simpl; lia).
    split; [done | lia].
  - injection Hrun as <-. rewrite edge_occurrences_short by (simpl; lia).
    split; [done | lia].
  - cbn [update_path] in Hrun.
    apply bind_Ok_inv in Hrun as (h1 & Hh1 & Hrun).
    apply update_edge_Ok_inv in Hh1. subst h1.
    destruct (IH _ _ _ _ Hrun k) as [IH0 IHpos].
    rewrite edge_occurrences_cons.
    pose proof (edge_occurrences_nonneg k (v :: rest)) as Hnn.
    case_decide as Hk.
    + subst k. rewrite lookup_insert_eq in IH0, IHpos. simpl in IHpos.
      split; [lia|]. intros _.
      destruct (decide (edge_occurrences (edge_key u v) (v :: rest) = 0%Z))
        as [H0|Hne].
      * rewrite H0. rewrite (IH0 H0). eexists. split; [done|]. simpl.
        destruct s; split; lia.
      * destruct IHpos as (r' & Hr' & Hc & Hf); [lia|].
        exists r'. split; [done|]. rewrite Hc, Hf. destruct s; split; lia.
    + rewrite lookup_insert_ne in IH0, IHpos by done.
      rewrite Z.add_0_l. done.
Qed.

(** X9. After [record_route_feedback] returns, a record whose key is the key
    of no edge of the path is unchanged; the record of a key that [n > 0]
    edges of the path have has its [usage_count] raised by [n], and its
    [total_failures] raised by [n] for a failed route and unchanged for a
    successful one, counted from zero for a new record; no record is removed. *)
Theorem feedback_counts h path a e s h' k :
  record_route_feedback h path a e s = Ok h' →
  (edge_occurrences k path = 0%Z → h' !! k = h !! k) ∧
  ((0 < edge_occurrences k path)%Z →
   ∃ r', h' !! k = Some r' ∧
     usage_count r' =
       (usage_count (default new_record (h !! k)) + edge_occurrences k path)%Z ∧
     total_failures r' =
       (total_failures (default new_record (h !! k))
        + if s then 0 else edge_occurrences k path)%Z) ∧
  (is_Some (h !! k) → is_Some (h' !! k)).
Proof.
  unfold record_route_feedback. rewrite feedback_delay_eq.
  cbn [mbind outcome_bind]. intros Hrun.
  destruct (update_path_counts _ _ _ _ _ Hrun k) as [H0 Hpos].
  split_and!; try done. intros Hs.
  destruct (decide (edge_occurrences k path = 0%Z)) as [Hz|Hnz].
  - by rewrite (H0 Hz).
  - pose proof (edge_occurrences_nonneg k path).
    destruct Hpos as (r' & -> & _); [lia|]. by eexists.
Qed.








Lemma edge_occurrences_pos path : ∀ u v,
  (u, v) ∈ path_edges path → (0 < edge_occurrences (edge_key u v) path)%Z.
Proof.
  induction path as [|x|x y rest IH] using path_ind2; intros u v Hin.
  - by apply elem_of_nil in Hin.
  - by apply elem_of_nil in Hin.
  - rewrite edge_occurrences_cons. cbn [path_edges] in Hin.
    pose proof (edge_occurrences_nonneg (edge_key u v) (y :: rest)).
    apply elem_of_cons in Hin as [[= -> ->] | Hin].
    + rewrite decide_True by done. lia.
    + specialize (IH _ _ Hin). case_decide; lia.
Qed.

Lemma failure_ratio_le f n j :
  (1 ≤ n)%Z → (0 ≤ f)%Z → (1 ≤ j)%Z →
  (IZR f / IZR (n + j) <= IZR f / IZR n)%R ∧
  ((0 < f)%Z → (IZR f / IZR (n + j) < IZR f / IZR n)%R).
Proof.
  intros Hn Hf Hj.
  assert (H1 : (0 < IZR n)%R) by (apply IZR_lt; lia).
  assert (H2 : (IZR n < IZR (n + j))%R) by (apply IZR_lt; lia).
  assert (H3 : (0 <= IZR f)%R) by (apply IZR_le; lia).
  assert (H4 : (/ IZR (n + j) < / IZR n)%R).
  { apply Rinv_lt_contravar; [|done]. apply Rmult_lt_0_compat; lra. }
  unfold Rdiv. split.
  - apply Rmult_le_compat_l; [done|]. by left.
  - intros Hpos. apply Rmult_lt_compat_l; [|done]. apply IZR_lt. lia.
Qed.

(** X11. After [record_route_feedback] with [success = True] on a store that
    satisfies the invariant, for every edge of the path: [total_failures] is
    unchanged, [failure_rate] does not increase and strictly decreases when
    it was positive; a record created by the call has [failure_rate = 0]. *)
Theorem successful_feedback_failure_rate h path a e u v :
  store_ok h → (u, v) ∈ path_edges path →
  ∃ h' r', record_route_feedback h path a e true = Ok h' ∧
    h' !! edge_key u v = Some r' ∧
    match h !! edge_key u v with
    | None => total_failures r' = 0%Z ∧ failure_rate r' = 0%R
    | Some r =>
        total_failures r' = total_failures r ∧
        (failure_rate r' <= failure_rate r)%R ∧
        ((0 < failure_rate r)%R → (failure_rate r' < failure_rate r)%R)
    end.
Proof.
  intros Hok Hin. unfold record_route_feedback. rewrite feedback_delay_eq.
  cbn [mbind outcome_bind].
  destruct (update_path_store_ok path h (spec_delay a e) true Hok)
    as (h' & Hrun & Hok').
  destruct (update_path_counts _ _ _ _ _ Hrun (edge_key u v)) as [_ Hpos].
  pose proof (edge_occurrences_pos path u v Hin) as Hj.
  destruct (Hpos Hj) as (r' & Hr' & Hc & Hf).
  exists h', r'. split_and!; try done.
  destruct (Hok' _ _ Hr') as (Hn' & Hf' & _ & Hfr').
  destruct (h !! edge_key u v) as [r|] eqn:Hr; simpl in *.
  - destruct (Hok _ _ Hr) as (Hn & Hfn & _ & Hfr).
    rewrite Z.add_0_r in Hf. split; [done|].
    rewrite Hfr, Hfr', Hc, Hf.
    destruct (failure_ratio_le (total_failures r) (usage_count r)
                (edge_occurrences (edge_key u v) path)
                ltac:(lia) ltac:(lia) ltac:(lia)) as [Hle Hlt].
    split; [done|]. intros Hpos'. apply Hlt.
    destruct (decide (total_failures r = 0)%Z) as [H0|H0]; [|lia].
    rewrite H0 in Hpos'. unfold Rdiv in Hpos'. rewrite Rmult_0_l in Hpos'. lra.
  - split; [lia|]. rewrite Hfr'. replace (total_failures r') with 0%Z by lia.
    unfold Rdiv. apply Rmult_0_l.
Qed.

Lemma observe_delay_bounded D r d s :
  record_pre r →
  (usage_count r = 0%Z → total_delay r = 0%R) →
  ((1 ≤ usage_count r)%Z →
     average_delay r = (total_delay r / IZR (usage_count r))%R) →
  (0 <= total_delay r)%R → (average_delay r <= D)%R →
  (0 <= d <= D)%R →
  (0 <= total_delay (observe r d s))%R ∧ (average_delay (observe r d s) <= D)%R.
Proof.
  intros [Hn _] H0 Havg Ht Ha Hd. simpl.
  pose proof (decay_at_pos (usage_count r + 1)) as Hp.
  pose proof (decay_at_lt_1 (usage_count r + 1) ltac:(lia)) as Hl.
  set (k := decay_at (usage_count r + 1)) in *.
  assert (Htk : (0 <= total_delay r * k <= total_delay r)%R) by nra.
  split; [lra|].
  assert (H1 : (0 < IZR (usage_count r + 1))%R) by (apply IZR_lt; lia).
  apply Rmult_le_reg_r with (IZR (usage_count r + 1)); [done|].
  unfold Rdiv. rewrite Rmult_assoc, Rinv_l, Rmult_1_r by (clear -H1; lra).
  rewrite plus_IZR.
  destruct (decide (usage_count r = 0%Z)) as [Hz|Hnz].
  - rewrite (H0 Hz), Hz in *. lra.
  - assert (Hn1 : (1 ≤ usage_count r)%Z) by lia.
    assert (H2 : (0 < IZR (usage_count r))%R) by (apply IZR_lt; lia).
    assert (Htot : (total_delay r = average_delay r * IZR (usage_count r))%R).
    { rewrite (Havg Hn1). field. clear -H2. lra. }
    assert (average_delay r * IZR (usage_count r) <= D * IZR (usage_count r))%R
      by (apply Rmult_le_compat_r; lra).
    lra.
Qed.

Lemma update_path_delay_bounded D path : ∀ h d s,
  store_ok h → delay_bounded D h → (0 <= d <= D)%R →
  ∃ h', update_path path h d s = Ok h' ∧ store_ok h' ∧ delay_bounded D h'.
Proof.
  induction path as [|x|x y rest IH] using path_ind2; intros h d s Hok Hb Hd;
    [exists h; by split_and! | exists h; by split_and! |].
  cbn [update_path]. rewrite update_edge_ok by done. cbn [mbind outcome_bind].
  apply IH; [| |done].
  - apply store_ok_insert; [done|]. apply observe_ok. by apply default_record_pre.
  - intros k r. rewrite lookup_insert. case_decide; [|by apply Hb].
    intros [= <-]. apply observe_delay_bounded; try done.
    + by apply default_record_pre.
    + destruct (h !! edge_key x y) as [r|] eqn:Hr; simpl; [|intros _; lra].
      intros Hz. destruct (Hok _ _ Hr) as [? _]. lia.
    + destruct (h !! edge_key x y) as [r|] eqn:Hr; simpl; [|lia].
      intros _. by destruct (Hok _ _ Hr) as (_ & _ & ? & _).
    + destruct (h !! edge_key x y) as [r|] eqn:Hr; simpl; [|lra].
      by destruct (Hb _ _ Hr).
    + destruct (h !! edge_key x y) as [r|] eqn:Hr; simpl; [|lra].
      by destruct (Hb _ _ Hr).
Qed.

Lemma store_history_wf D h : store_ok h → delay_bounded D h → history_wf h.
Proof.
  intros Hok Hb k r Hr. destruct (Hb _ _ Hr) as [Ht _].
  split; [|by apply record_ok_failure_rate, (Hok k)].
  destruct (Hok _ _ Hr) as (Hn & _ & -> & _).
  assert (0 < IZR (usage_count r))%R by (apply IZR_lt; lia).
  apply Rmult_le_pos; [done|]. left. by apply Rinv_0_lt_compat.
Qed.

(** X12. Every sequence of feedback calls on an empty store returns, and in
    the store it leaves the invariant of the data model holds, every
    [failure_rate] is in [[0,1]] and every [average_delay] lies between 0 and
    the largest delay of the calls (any bound [D] on their delays). *)
Theorem feedback_history_bounded D calls :
  (∀ path a e s, (path, a, e, s) ∈ calls → (spec_delay a e <= D)%R) →
  ∃ h, run_feedback calls ∅ = Ok h ∧ store_ok h ∧ history_wf h ∧
    ∀ k r, h !! k = Some r → (0 <= average_delay r <= D)%R.
Proof.
  intros Hcalls.
  assert (Hgen : ∀ h0, store_ok h0 → delay_bounded D h0 →
            ∃ h, run_feedback calls h0 = Ok h ∧ store_ok h ∧ delay_bounded D h).
  { induction calls as [|[[[path a] e] s] calls IH]; intros h0 Hok Hb;
      [exists h0; by split_and!|].
    unfold run_feedback. cbn [foldl mbind outcome_bind fst snd].
    unfold record_route_feedback at 2. rewrite feedback_delay_eq.
    cbn [mbind outcome_bind].
    destruct (update_path_delay_bounded D path h0 (spec_delay a e) s Hok Hb)
      as (h1 & -> & Hok1 & Hb1).
    { split; [apply spec_delay_nonneg|]. apply (Hcalls path a e s). by left. }
    apply IH; [|done|done]. intros p a' e' s' Hin. apply (Hcalls p a' e' s').
    by right. }
  destruct (Hgen ∅) as (h & Hrun & Hok & Hb).
  { apply store_ok_empty. }
  { intros k r. by rewrite lookup_empty. }
  exists h. split_and!; try done; [by eapply store_history_wf|].
  intros k r Hr. destruct (store_history_wf D h Hok Hb k r Hr) as [? _].
  destruct (Hb _ _ Hr). done.
Qed.

(** ** The history summary *)










(** ** The order of the frontier *)

Lemma entry_ltb_irrefl a : entry_ltb a a = false.
Proof.
  destruct a as [[r|] n]; unfold entry_ltb; simpl.
  - rewrite bool_decide_eq_true_2 by done. apply bool_decide_eq_false_2. lia.
  - apply bool_decide_eq_false_2. lia.
Qed.


Lemma entry_ltb_spec a b : entry_ltb a b = true ↔ entry_lt a b.
Proof.
  destruct a as [[x|] n], b as [[y|] m]; unfold entry_ltb, entry_lt; simpl.
  - destruct (decide (x = y)) as [->|Hne].
    + rewrite bool_decide_eq_true_2 by done. rewrite bool_decide_eq_true.
      split; [by right|]. intros [?|[_ ?]]; [lra | done].
    + rewrite bool_decide_eq_false_2 by done. rewrite bool_decide_eq_true.
      split; [by left|]. intros [?|[? _]]; done.
  - done.
  - done.
  - by rewrite bool_decide_eq_true.
Qed.

Lemma entry_ltb_false_trans a b c :
  entry_ltb a b = false → entry_ltb b c = false → entry_ltb a c = false.
Proof.
  rewrite <- !not_true_iff_false, !entry_ltb_spec.
  destruct a as [[x|] n], b as [[y|] m], c as [[z|] k];
    unfold entry_lt; simpl; intros H1 H2 H3; try tauto.
  - destruct H3 as [H3|[-> H3]].
    + apply H1. left.
      destruct (Rlt_dec x y) as [|Hxy]; [done|]. exfalso. apply H2.
      destruct (Rlt_dec y z) as [|Hyz]; [by left|]. lra.
    + destruct (Rlt_dec z y) as [Hzy|Hzy]; [by apply H1; left|].
      destruct (Rlt_dec y z) as [Hyz|Hyz]; [by apply H2; left|].
      assert (y = z) as -> by lra.
      destruct (decide (n < m)%Z); [by apply H1; right|].
      apply H2. right. split; [done | lia].
  - lia.
Qed.

Lemma entry_ltb_asym a b : entry_ltb a b = true → entry_ltb b a = false.
Proof.
  rewrite <- not_true_iff_false, !entry_ltb_spec.
  destruct a as [[x|] n], b as [[y|] m]; unfold entry_lt; simpl;
    intros H1 H2; try tauto.
  - destruct H1 as [?|[? ?]], H2 as [?|[? ?]]; try lra. lia.
  - lia.
Qed.

Lemma extract_min_least x l m rest :
  extract_min x l = (m, rest) → ∀ e, e ∈ x :: l → entry_ltb e m = false.
Proof.
  revert x m rest. induction l as [|y l IH]; intros x m rest; simpl.
  - intros [= <- <-] e He. apply list_elem_of_singleton in He as ->.
    apply entry_ltb_irrefl.
  - destruct (extract_min y l) as [m' rest'] eqn:He.
    specialize (IH _ _ _ He).
    destruct (entry_ltb m' x) eqn:Hlt; intros [= <- <-] e Hin.
    + apply elem_of_cons in Hin as [-> | Hin]; [|by apply IH].
      by apply entry_ltb_asym.
    + apply elem_of_cons in Hin as [-> | Hin]; [apply entry_ltb_irrefl|].
      eapply entry_ltb_false_trans; [by apply IH | done].
Qed.

Lemma entry_least_cost r n r' m :
  entry_ltb (Finite r', m) (Finite r, n) = false → (r <= r')%R.
Proof.
  rewrite <- not_true_iff_false, entry_ltb_spec. unfold entry_lt; simpl.
  intros H. destruct (Rlt_dec r' r); [|lra]. exfalso. apply H. by left.
Qed.

(** ** The search finds least-cost walks *)

Section Dijkstra.
Variable g : RoadGraph.
Variable vt : string.
Variable h : gmap string EdgeHistoryRecord.
Variable start : Z.

Lemma walk_cost_nonneg v p c :
  nonneg_costs g vt h → walk g vt h start v p c → (0 <= c)%R.
Proof.
  intros W. induction 1 as [|u v d md p c _ IH Hin]; [lra|].
  pose proof (W _ _ _ _ Hin). lra.
Qed.

Lemma walk_crossing (V : gset Z) v p c :
  nonneg_costs g vt h → walk g vt h start v p c → start ∈ V → v ∉ V →
  ∃ x y d md p1 c1,
    x ∈ V ∧ (y ∉ V) ∧ walk g vt h start x p1 c1 ∧
    (y, d, md) ∈ get_neighbors g x ∧
    (c1 + adaptive_cost vt h x y d md <= c)%R.
Proof.
  intros W Hw Hs. induction Hw as [|u v d md p c Hw IH Hin]; intros Hv; [done|].
  destruct (decide (u ∈ V)) as [Hu|Hu].
  - exists u, v, d, md, p, c. split_and!; try done; lra.
  - destruct (IH Hu) as (x & y & d' & md' & p1 & c1 & ? & ? & ? & ? & ?).
    exists x, y, d', md', p1, c1. split_and!; try done.
    pose proof (W _ _ _ _ Hin). lra.
Qed.


Lemma search_ok_set_stats E st s :
  search_ok g vt h start E st → search_ok g vt h start E (set_stats st s).
Proof.
  intros [Hp Ho]. split; [by destruct Hp|].
  intros W. by destruct (Ho W).
Qed.

Lemma bounded_le (costs : gmap Z cost) v r r' :
  bounded costs v r → (r <= r')%R → bounded costs v r'.
Proof. intros (cv & ? & ?) ?. exists cv. split; [done | lra]. Qed.

Lemma bounded_relax (costs : gmap Z cost) v new cv x r :
  costs !! v = Some cv → cost_ltb (Finite new) cv = true →
  bounded costs x r → bounded (<[v := Finite new]> costs) x r.
Proof.
  intros Hv Hlt (cx & Hx & Hle). destruct (decide (x = v)) as [->|Hne].
  - exists new. rewrite lookup_insert_eq. split; [done|].
    rewrite Hv in Hx. injection Hx as ->. simpl in Hlt.
    apply bool_decide_eq_true in Hlt. lra.
  - exists cx. by rewrite lookup_insert_ne.
Qed.

Lemma search_ok_relax E st cur v d md cu cv :
  search_ok g vt h start E st →
  start ∈ visited st → cur ∈ visited st → v ∉ visited st → E ⊆ visited st →
  (v, d, md) ∈ get_neighbors g cur →
  costs st !! cur = Some (Finite cu) → costs st !! v = Some cv →
  cost_ltb (Finite (cu + adaptive_cost vt h cur v d md)) cv = true →
  (nonneg_costs g vt h → ∀ u, u ∈ visited st → bounded (costs st) u cu) →
  search_ok g vt h start E
    (relax st cur v (Finite (cu + adaptive_cost vt h cur v d md))).
Proof.
  intros [Hp Ho] Hs Hcur Hv HE Hin Hcu Hcv Hlt Hmono.
  assert (Hw : nonneg_costs g vt h →
                 (0 <= adaptive_cost vt h cur v d md)%R)
    by (intros W; by apply (W _ _ _ _ Hin)).
  set (w := adaptive_cost vt h cur v d md) in *.
  assert (Hvs : v ≠ start) by (intros ->; done).
  assert (Hvc : v ≠ cur) by (intros ->; done).
  split.
  - destruct Hp as [Hsc Hsp Hpar Hpq Hvis Hinit]. split; simpl.
    + by rewrite lookup_insert_ne.
    + intros u. by rewrite lookup_insert_ne.
    + intros x u. destruct (decide (x = v)) as [->|Hne].
      * rewrite lookup_insert_eq. intros [= <-]. split; [done|].
        exists cu, d, md. rewrite lookup_insert_ne by done.
        by rewrite lookup_insert_eq.
      * rewrite lookup_insert_ne by done. intros Hx.
        destruct (Hpar _ _ Hx) as (Hu & cu' & d' & md' & Hcu' & Hin' & Hcx).
        split; [done|]. exists cu', d', md'.
        rewrite !lookup_insert_ne; [done | done | by intros ->].
    + intros c n Hcn. apply elem_of_cons in Hcn as [[= -> ->] | Hcn].
      * right. exists cur. by rewrite lookup_insert_eq.
      * destruct (Hpq _ _ Hcn) as [->|[u Hu]]; [by left|].
        destruct (decide (n = v)) as [->|Hne].
        -- right. exists cur. by rewrite lookup_insert_eq.
        -- right. exists u. by rewrite lookup_insert_ne.
    + intros x Hx. destruct (Hvis _ Hx) as [->|[u Hu]]; [by left|].
      right. exists u. rewrite lookup_insert_ne; [done | by intros ->].
    + by left.
  - intros W. destruct (Ho W) as [Hset Hedg Hfr Hent Hmo].
    specialize (Hmono W). split; simpl.
    + intros u p c Hu Hwalk. eapply bounded_relax; [done | done |].
      by eapply Hset.
    + intros u x d' md' Hu Hin'. destruct (Hedg _ _ _ _ Hu Hin') as (cu' & Hcu' & Hb).
      exists cu'. split.
      * rewrite lookup_insert_ne; [done|]. intros ->. by apply Hv, HE.
      * by eapply bounded_relax.
    + intros x cx Hx. destruct (decide (x = v)) as [->|Hne].
      * rewrite lookup_insert_eq. intros [= <-]. by left.
      * rewrite lookup_insert_ne by done. intros Hcx. right. by apply Hfr.
    + intros c n Hcn. apply elem_of_cons in Hcn as [[= -> ->] | Hcn].
      * exists (cu + w)%R. split; [done|]. exists (cu + w)%R.
        rewrite lookup_insert_eq. split; [done | lra].
      * destruct (Hent _ _ Hcn) as (r & -> & Hb). exists r. split; [done|].
        by eapply bounded_relax.
    + intros u c n Hu Hcn. apply elem_of_cons in Hcn as [[= -> ->] | Hcn].
      * exists (cu + w)%R. split; [done|]. eapply bounded_relax; [done | done |].
        eapply bounded_le; [by apply Hmono|]. pose proof (Hw W) as H0.
        clearbody w. clear -H0. lra.
      * destruct (Hmo _ _ _ Hu Hcn) as (r & -> & Hb). exists r. split; [done|].
        by eapply bounded_relax.
Qed.

Lemma explore_neighbors_ok E cur cu neighbors : ∀ st st',
  search_ok g vt h start E st →
  start ∈ visited st → cur ∈ visited st → E ⊆ visited st →
  costs st !! cur = Some (Finite cu) →
  (nonneg_costs g vt h → ∀ u, u ∈ visited st → bounded (costs st) u cu) →
  (∀ x, x ∈ neighbors → x ∈ get_neighbors g cur) →
  explore_neighbors vt h cur neighbors st = Ok st' →
  search_ok g vt h start E st' ∧ visited st' = visited st ∧
  costs st' !! cur = Some (Finite cu) ∧
  (nonneg_costs g vt h →
   (∀ u, u ∈ visited st' → bounded (costs st') u cu) ∧
   (∀ x r, bounded (costs st) x r → bounded (costs st') x r) ∧
   ∀ v d md, (v, d, md) ∈ neighbors →
     bounded (costs st') v (cu + adaptive_cost vt h cur v d md)).
Proof.
  induction neighbors as [|[[v d] md] rest IH];
    intros st st' Hok Hs Hcur HE Hcu Hmono Hsub Hrun.
  - injection Hrun as <-. split_and!; try done. intros W. split_and!; try done.
    + by apply Hmono.
    + intros v d md Hin. by apply elem_of_nil in Hin.
  - assert (Hrest : ∀ x, x ∈ rest → x ∈ get_neighbors g cur)
      by (intros x Hx; apply Hsub; by right).
    assert (Hedge : (v, d, md) ∈ get_neighbors g cur)
      by (apply Hsub; by left).
    cbn [explore_neighbors] in Hrun.
    set (st1 := set_stats st (examine_edge (stats st) (cur, v))) in *.
    assert (Hok1 : search_ok g vt h start E st1)
      by (by apply search_ok_set_stats).
    set (w := adaptive_cost vt h cur v d md).
    assert (Hw : nonneg_costs g vt h → (0 <= w)%R)
      by (intros W; by apply (W _ _ _ _ Hedge)).
    case_decide as Hvis.
    { destruct (IH st1 st' Hok1 Hs Hcur HE Hcu Hmono Hrest Hrun)
        as (Hok' & Hv' & Hcu' & HW).
      split_and!; try done. intros W. destruct (HW W) as (Hm' & Hmon & Hb).
      split_and!; try done. intros v' d' md' Hin.
      apply elem_of_cons in Hin as [[= -> -> ->] | Hin]; [|by apply Hb].
      apply Hmon. eapply bounded_le; [by apply Hmono|].
      pose proof (Hw W) as H0. unfold w in H0. lra. }
    destruct (calculate_adaptive_cost vt h (stats st1) cur v d md)
      as [edge_cost stats'] eqn:Hcost.
    apply (f_equal fst) in Hcost. rewrite calculate_adaptive_cost_fst in Hcost.
    simpl in Hcost. subst edge_cost. fold w in Hrun.
    set (st2 := set_stats st1 stats') in *.
    assert (Hok2 : search_ok g vt h start E st2)
      by (by apply search_ok_set_stats).
    assert (Hcu2 : costs st2 !! cur = Some (Finite cu)) by done.
    rewrite (getitem_Ok _ _ _ Hcu2) in Hrun. cbn [mbind outcome_bind] in Hrun.
    destruct (costs st2 !! v) as [cv|] eqn:Hcv.
    2:{ by rewrite (getitem_KeyError _ _ Hcv) in Hrun. }
    rewrite (getitem_Ok _ _ _ Hcv) in Hrun. cbn [mbind outcome_bind] in Hrun.
    cbn [cost_add] in Hrun.
    destruct (cost_ltb (Finite (cu + w)) cv) eqn:Hlt.
    + set (st3 := relax st2 cur v (Finite (cu + w))) in *.
      assert (Hok3 : search_ok g vt h start E st3).
      { apply (search_ok_relax E st2 cur v d md cu cv); try done. }
      assert (Hcu3 : costs st3 !! cur = Some (Finite cu)).
      { simpl. rewrite lookup_insert_ne; [done | by intros ->]. }
      assert (Hmon3 : ∀ x r, bounded (costs st) x r → bounded (costs st3) x r).
      { intros x r Hb. by eapply bounded_relax. }
      destruct (IH st3 st' Hok3 Hs Hcur HE Hcu3) as (Hok' & Hv' & Hcu' & HW);
        try done.
      { intros W u Hu. apply Hmon3. by apply Hmono. }
      split_and!; try done. intros W. destruct (HW W) as (Hm' & Hmon & Hb).
      split_and!; try done.
      * intros x r Hx. by apply Hmon, Hmon3.
      * intros v' d' md' Hin.
        apply elem_of_cons in Hin as [[= -> -> ->] | Hin]; [|by apply Hb].
        apply Hmon. exists (cu + w)%R. simpl. rewrite lookup_insert_eq.
        split; [done | unfold w; lra].
    + destruct (IH st2 st' Hok2 Hs Hcur HE Hcu2 Hmono Hrest Hrun)
        as (Hok' & Hv' & Hcu' & HW).
      split_and!; try done. intros W. destruct (HW W) as (Hm' & Hmon & Hb).
      split_and!; try done. intros v' d' md' Hin.
      apply elem_of_cons in Hin as [[= -> -> ->] | Hin]; [|by apply Hb].
      apply Hmon. destruct cv as [cv|]; [|done]. exists cv. split; [done|].
      simpl in Hlt. apply bool_decide_eq_false in Hlt. unfold w in Hlt. lra.
Qed.
End Dijkstra.

Section DijkstraLoop.
Variable g : RoadGraph.
Variable vt : string.
Variable h : gmap string EdgeHistoryRecord.
Variable start : Z.

Lemma path_inv_entry_cost st c n :
  path_inv g vt h start st → (c, n) ∈ pq st →
  ∃ cn, costs st !! n = Some (Finite cn).
Proof.
  intros Hp Hin. destruct (pi_pq _ _ _ _ _ Hp _ _ Hin) as [->|[u Hu]].
  - exists 0%R. apply Hp.
  - destruct (pi_parent _ _ _ _ _ Hp _ _ Hu) as (_ & cu & d & md & _ & _ & Hc).
    by eexists.
Qed.

Lemma initial_state_ok : search_ok g vt h start ∅ (initial_state g start).
Proof.
  split.
  - split; simpl.
    + apply lookup_insert_eq.
    + intros u Hu. by apply lookup_gset_to_gmap_Some in Hu as [_ [=]].
    + intros v u Hu. by apply lookup_gset_to_gmap_Some in Hu as [_ [=]].
    + intros c n Hin. apply list_elem_of_singleton in Hin as [= -> ->]. by left.
    + intros v Hv. set_solver.
    + by right.
  - intros W. split; simpl.
    + intros u p c Hu. set_solver.
    + intros u v d md Hu. set_solver.
    + intros v cv _. rewrite lookup_insert. case_decide as Hv.
      * intros [= <-]. subst v. by left.
      * intros Hl. by apply lookup_gset_to_gmap_Some in Hl as [_ [=]].
    + intros c n Hin. apply list_elem_of_singleton in Hin as [= -> ->].
      exists 0%R. split; [done|]. exists 0%R. rewrite lookup_insert_eq.
      split; [done | lra].
    + intros u c n Hu. set_solver.
Qed.

Lemma search_loop_ok end_ : ∀ fuel st st',
  search_ok g vt h start (visited st) st → end_ ∉ visited st →
  search_loop g vt h fuel end_ st = Ok st' →
  path_inv g vt h start st' ∧
  ((end_ ∈ visited st' ∧
    (nonneg_costs g vt h →
     ∀ p c, walk g vt h start end_ p c → bounded (costs st') end_ c)) ∨
   ((end_ ∉ visited st') ∧ pq st' = [] ∧ start ∈ visited st' ∧
    (nonneg_costs g vt h → opt_inv g vt h start (visited st') st'))).
Proof.
  induction fuel as [|fuel IH]; intros st st' [Hp Ho] Hend Hrun.
  - simpl in Hrun. destruct (pq st) as [|x l] eqn:Hpq.
    + simpl in Hrun. injection Hrun as <-. split; [done|]. right.
      split_and!; try done.
      destruct (pi_init _ _ _ _ _ Hp) as [?|[_ Hq]]; [done|].
      by rewrite Hq in Hpq.
    + simpl in Hrun. by destruct (extract_min x l) as [[c n] pq'].
  - cbn [search_loop] in Hrun.
    destruct (pq st) as [|x l] eqn:Hpq.
    { simpl in Hrun. injection Hrun as <-. split; [done|]. right.
      split_and!; try done.
      destruct (pi_init _ _ _ _ _ Hp) as [?|[_ Hq]]; [done|].
      by rewrite Hq in Hpq. }
    cbn [heappop] in Hrun.
    destruct (extract_min x l) as [[c n] pq'] eqn:Hmin.
    pose proof (extract_min_least _ _ _ _ Hmin) as Hleast.
    pose proof (extract_min_perm _ _ _ _ Hmin) as Hperm.
    rewrite <- Hpq in Hleast.
    assert (Hn : (c, n) ∈ pq st) by (rewrite Hpq, <- Hperm; by left).
    assert (Hsub : ∀ e, e ∈ pq' → e ∈ pq st)
      by (intros e He; rewrite Hpq, <- Hperm; by right).
    assert (Hother : ∀ c' m, (c', m) ∈ pq st → m ≠ n → (c', m) ∈ pq').
    { intros c' m Hin Hne. rewrite Hpq, <- Hperm in Hin.
      apply elem_of_cons in Hin as [[= _ ->] | Hin]; done. }
    set (st1 := set_pq st pq') in *.
    case_decide as Hvis.
    { (* a stale entry *)
      apply (IH st1 st'); [|done|done]. split.
      - destruct Hp as [Hsc Hsp Hpar Hq Hv Hinit]. split; simpl; try done.
        + intros c' m Hin. by eapply Hq, Hsub.
        + destruct Hinit as [?|[He _]]; [by left|]. simpl in Hvis.
          rewrite He in Hvis. set_solver.
      - intros W. destruct (Ho W) as [Hset Hedg Hfr Hent Hmo].
        split; simpl; try done.
        + intros v cv Hv Hcv. apply Hother; [by apply Hfr|].
          intros ->. done.
        + intros c' m Hin. by eapply Hent, Hsub.
        + intros u c' m Hu Hin. by eapply Hmo, Hsub. }
    simpl in Hvis.
    destruct (path_inv_entry_cost st c n Hp Hn) as [cn Hcn].
    assert (HW : nonneg_costs g vt h →
              c = Finite cn ∧
              ∀ c' m, (c', m) ∈ pq st →
                ∃ r', c' = Finite r' ∧ (cn <= r')%R).
    { intros W. destruct (Ho W) as [Hset Hedg Hfr Hent Hmo].
      destruct (Hent _ _ Hn) as (r & -> & cn' & Hcn' & Hle).
      rewrite Hcn in Hcn'. injection Hcn' as <-.
      pose proof (Hleast _ (Hfr _ _ Hvis Hcn)) as Hl1.
      apply entry_least_cost in Hl1.
      assert (r = cn) as -> by lra. split; [done|].
      intros c' m Hin. destruct (Hent _ _ Hin) as (r' & -> & _).
      exists r'. split; [done|]. by apply (entry_least_cost _ n _ m), Hleast. }
    set (st2 := settle st1 n) in *.
    assert (Hs2 : start ∈ visited st2).
    { simpl. destruct (pi_init _ _ _ _ _ Hp) as [?|[_ Hq]]; [set_solver|].
      rewrite Hq in Hn. apply list_elem_of_singleton in Hn as [= _ ->].
      set_solver. }
    assert (Hp2 : path_inv g vt h start st2).
    { destruct Hp as [Hsc Hsp Hpar Hq Hv Hinit]. split; simpl; try done.
      - intros v u Hu. destruct (Hpar _ _ Hu) as [? ?]. split; [set_solver|done].
      - intros c' m Hin. by eapply Hq, Hsub.
      - intros v Hv'. apply elem_of_union in Hv' as [Hv'|Hv']; [|by apply Hv].
        apply elem_of_singleton in Hv' as ->. by eapply Hq.
      - by left. }
    assert (Ho2 : nonneg_costs g vt h →
              opt_inv g vt h start (visited st) st2).
    { intros W. destruct (Ho W) as [Hset Hedg Hfr Hent Hmo].
      destruct (HW W) as [-> Hmin'].
      split; simpl; try done.
      - intros u p c Hu Hw.
        apply elem_of_union in Hu as [Hu|Hu]; [|by eapply Hset].
        apply elem_of_singleton in Hu as ->.
        destruct (pi_init _ _ _ _ _ Hp) as [Hs|[_ Hq]].
        + destruct (walk_crossing g vt h start (visited st) n p c W Hw Hs Hvis)
            as (a & b & d & md & p1 & c1 & Hx & Hy & Hw1 & Hxy & Hle).
          destruct (Hset _ _ _ Hx Hw1) as (cx & Hcx & Hcx1).
          destruct (Hedg _ _ _ _ Hx Hxy) as (cx' & Hcx' & cy & Hcy & Hcy1).
          rewrite Hcx in Hcx'. injection Hcx' as <-.
          destruct (Hmin' _ _ (Hfr _ _ Hy Hcy)) as (r' & [= <-] & Hr').
          exists cn. split; [done | lra].
        + rewrite Hq in Hn. apply list_elem_of_singleton in Hn as [= _ ->].
          rewrite (pi_start_cost _ _ _ _ _ Hp) in Hcn. injection Hcn as <-.
          exists 0%R. split; [apply Hp|]. by eapply walk_cost_nonneg.
      - intros v cv Hv Hcv. apply Hother; [apply Hfr; [set_solver | done]|].
        set_solver.
      - intros c' m Hin. by eapply Hent, Hsub.
      - intros u c' m Hu Hin.
        apply elem_of_union in Hu as [Hu|Hu]; [|by eapply Hmo, Hsub].
        apply elem_of_singleton in Hu as ->.
        destruct (Hmin' _ _ (Hsub _ Hin)) as (r' & -> & Hr').
        exists r'. split; [done|]. by exists cn. }
    case_decide as Hne.
    { injection Hrun as <-. subst n. split; [done|]. left.
      split; [simpl; set_solver|]. intros W pw cw Hw.
      apply (oi_settled _ _ _ _ _ _ (Ho2 W) end_ pw cw);
        [simpl; set_solver | done]. }
    destruct (explore_neighbors vt h n (get_neighbors g n) st2)
      as [st3| |] eqn:Hexp; [|done|done].
    cbn [mbind outcome_bind] in Hrun.
    destruct (explore_neighbors_ok g vt h start (visited st) n cn
                (get_neighbors g n) st2 st3) as (Hok3 & Hv3 & Hcn3 & HW3);
      try done.
    { simpl. set_solver. }
    { simpl. set_solver. }
    { intros W u Hu. destruct (Ho W) as [Hset Hedg Hfr Hent Hmo].
      destruct (HW W) as [-> _]. simpl in Hu.
      apply elem_of_union in Hu as [Hu|Hu].
      - apply elem_of_singleton in Hu as ->. exists cn. split; [done | lra].
      - destruct (Hmo _ _ _ Hu Hn) as (r & [= <-] & Hb). done. }
    apply (IH st3 st'); [|rewrite Hv3; simpl; set_solver|done].
    destruct Hok3 as [Hp3 Ho3]. split; [done|].
    intros W. destruct (Ho3 W) as [Hset Hedg Hfr Hent Hmo].
    destruct (HW3 W) as (_ & _ & Hedges).
    split; try done.
    intros u v d md Hu Huv. rewrite Hv3 in Hu. simpl in Hu.
    apply elem_of_union in Hu as [Hu|Hu]; [|by eapply Hedg].
    apply elem_of_singleton in Hu as ->.
    exists cn. split; [done|]. by apply Hedges.
Qed.

Lemma follow_parents_chain (parents : gmap Z (option Z)) fuel :
  ∀ c acc path,
    follow_parents fuel parents (Some c) acc = Ok path →
    ∃ l, path = acc ++ l ∧ parent_chain parents c l.
Proof.
  induction fuel as [|fuel IH]; intros c acc path Hrun; [done|].
  cbn [follow_parents] in Hrun. unfold getitem in Hrun.
  destruct (parents !! c) as [[y|]|] eqn:Hc; cbn [mbind outcome_bind] in Hrun.
  - destruct (IH _ _ _ Hrun) as (l & -> & Hl).
    exists (c :: l). split; [by rewrite <- app_assoc | by eapply chain_link].
  - rewrite follow_parents_None in Hrun. injection Hrun as <-.
    exists [c]. split; [done | by constructor].
  - done.
Qed.

Lemma reconstruct_path_chain (parents : gmap Z (option Z)) end_ path :
  reconstruct_path parents start end_ = Ok path → path ≠ [] →
  parent_chain parents end_ (reverse path) ∧
  (parents !! end_ = Some None → end_ = start).
Proof.
  unfold reconstruct_path, getitem. intros Hrun Hne.
  destruct (parents !! end_) as [pe|] eqn:Hpe; [|done].
  cbn [mbind outcome_bind] in Hrun.
  destruct (bool_decide (pe = None) && bool_decide (end_ ≠ start)) eqn:Hguard.
  { by injection Hrun as <-. }
  destruct (follow_parents _ _ _ _) as [p0| |] eqn:Hf; [|done|done].
  cbn [mbind outcome_bind] in Hrun. injection Hrun as <-.
  apply follow_parents_chain in Hf as (l & -> & Hl). simpl.
  rewrite reverse_involutive. split; [done|].
  intros [= ->]. rewrite bool_decide_eq_true_2 in Hguard by done.
  simpl in Hguard. apply bool_decide_eq_false in Hguard.
  by destruct (decide (end_ = start)).
Qed.

Lemma parent_chain_walk st : ∀ c l,
  path_inv g vt h start st → parent_chain (parents st) c l →
  (parents st !! c = Some None → c = start) →
  ∃ cost, costs st !! c = Some (Finite cost) ∧
    walk g vt h start c (reverse l) cost.
Proof.
  intros c l Hp Hl. induction Hl as [c Hc|c y l Hc Hl IH]; intros Hroot.
  - rewrite (Hroot Hc). exists 0%R. split; [apply Hp | constructor].
  - destruct (pi_parent _ _ _ _ _ Hp _ _ Hc)
      as (Hy & cu & d & md & Hcu & Hin & Hcc).
    destruct IH as (cy & Hcy & Hw).
    { intros Hy0. destruct (pi_visited _ _ _ _ _ Hp _ Hy) as [?|[u Hu]]; [done|].
      rewrite Hy0 in Hu. done. }
    rewrite Hcu in Hcy. injection Hcy as <-.
    eexists. split; [done|]. rewrite reverse_cons. by eapply walk_edge.
Qed.

Lemma parent_chain_NoDup (parents : gmap Z (option Z)) V rank c l :
  ranked parents V rank → parent_chain parents c l →
  NoDup l ∧ ∀ x, x ∈ l → rank x ≤ rank c.
Proof.
  intros Hr. induction 1 as [c Hc|c y l Hc Hl [Hnd Hle]].
  - split; [apply NoDup_singleton|]. intros x Hx.
    apply list_elem_of_singleton in Hx as ->. lia.
  - destruct (Hr _ _ Hc) as [_ Hlt]. split.
    + constructor; [|done]. intros Hin. apply Hle in Hin. lia.
    + intros x Hx. apply elem_of_cons in Hx as [->|Hx]; [lia|].
      apply Hle in Hx. lia.
Qed.
End DijkstraLoop.




Lemma find_optimal_path_inv g vt h start end_ path tc s :
  find_optimal_path g vt h start end_ = Ok (path, tc, s) →
  ∃ st p0 tc0,
    search_loop g vt h (search_fuel g start) end_ (initial_state g start)
      = Ok st ∧
    reconstruct_path (parents st) start end_ = Ok p0 ∧
    costs st !! end_ = Some tc0 ∧
    ((p0 ≠ [] ∧ path = p0 ∧ tc = tc0 ∧
      s = set_path_length (stats st) (Z.of_nat (length p0))) ∨
     (p0 = [] ∧ path = [] ∧ tc = Infinity ∧ s = stats st)).
Proof.
  unfold find_optimal_path. intros Hrun.
  destruct (search_loop _ _ _ _ _ _) as [st| |] eqn:Hloop; [|done|done].
  cbn [mbind outcome_bind] in Hrun.
  destruct (reconstruct_path _ _ _) as [p0| |] eqn:Hrec; [|done|done].
  cbn [mbind outcome_bind] in Hrun. unfold getitem in Hrun.
  destruct (costs st !! end_) as [tc0|] eqn:Hc; [|done].
  cbn [mbind outcome_bind] in Hrun.
  exists st, p0, tc0. split_and!; try done.
  destruct p0 as [|x p0]; injection Hrun as <- <- <-.
  - by right.
  - left. split_and!; done.
Qed.

Lemma search_final_ok g vt h start end_ st :
  search_loop g vt h (search_fuel g start) end_ (initial_state g start)
    = Ok st →
  path_inv g vt h start st ∧ search_inv g start st ∧
  ((end_ ∈ visited st ∧
    (nonneg_costs g vt h →
     ∀ p c, walk g vt h start end_ p c → bounded (costs st) end_ c)) ∨
   ((end_ ∉ visited st) ∧ pq st = [] ∧ start ∈ visited st ∧
    (nonneg_costs g vt h → opt_inv g vt h start (visited st) st))).
Proof.
  intros Hrun.
  destruct (search_loop_ok g vt h start end_ _ _ _
              (initial_state_ok g vt h start) ltac:(set_solver) Hrun)
    as [Hp Hcases].
  split_and!; try done.
  destruct (search_terminates g vt h start end_) as [(st' & Hrun' & Hinv)|[Hr _]].
  - rewrite Hrun in Hrun'. by injection Hrun' as <-.
  - by rewrite Hrun in Hr.
Qed.

Lemma find_optimal_path_walk g vt h start end_ path tc s :
  find_optimal_path g vt h start end_ = Ok (path, tc, s) → path ≠ [] →
  ∃ c, tc = Finite c ∧ walk g vt h start end_ path c.
Proof.
  intros Hrun Hne.
  apply find_optimal_path_inv in Hrun
    as (st & p0 & tc0 & Hloop & Hrec & Hc & [(_ & -> & -> & ->)|(_ & -> & _)]);
    [|done].
  destruct (search_final_ok _ _ _ _ _ _ Hloop) as (Hp & _ & _).
  destruct (reconstruct_path_chain _ _ _ _ Hrec Hne) as [Hchain Hroot].
  destruct (parent_chain_walk g vt h start st _ _ Hp Hchain Hroot)
    as (c & Hcost & Hw).
  rewrite reverse_involutive in Hw. rewrite Hc in Hcost. injection Hcost as ->.
  by exists c.
Qed.

(** X1. A non-empty path returned by [find_optimal_path] is a walk of the
    graph from [start] to [end] that visits no node twice; the returned cost
    is finite and is the sum of the adaptive costs of the edges of the path;
    the statistics give its length. *)
Theorem find_optimal_path_sound g vt h start end_ path tc stats :
  find_optimal_path g vt h start end_ = Ok (path, tc, stats) → path ≠ [] →
  ∃ c, tc = Finite c ∧ walk g vt h start end_ path c ∧ NoDup path ∧
    path_length stats = Z.of_nat (length path).
Proof.
  intros Hrun Hne.
  destruct (find_optimal_path_walk _ _ _ _ _ _ _ _ Hrun Hne) as (c & Htc & Hw).
  apply find_optimal_path_inv in Hrun
    as (st & p0 & tc0 & Hloop & Hrec & Hc & [(_ & -> & _ & ->)|(_ & -> & _)]);
    [|done].
  destruct (search_final_ok _ _ _ _ _ _ Hloop) as (Hp & Hinv & _).
  destruct (reconstruct_path_chain _ _ _ _ Hrec Hne) as [Hchain Hroot].
  exists c. split_and!; try done.
  destruct (inv_rank _ _ _ Hinv) as [rank Hrank].
  destruct (parent_chain_NoDup _ _ _ _ _ Hrank Hchain) as [Hnd _].
  by rewrite reverse_Permutation in Hnd.
Qed.




(** ** The statistics of a search *)

Section Stats.
Variable g : RoadGraph.
Variable vt : string.
Variable h : gmap string EdgeHistoryRecord.
Variable start : Z.

Lemma calculate_adaptive_cost_stats s u v d md :
  (calculate_adaptive_cost vt h s u v d md).2 = s ∨
  ((calculate_adaptive_cost vt h s u v d md).2 = incr_history_influenced s ∧
   h ≠ ∅).
Proof.
  unfold calculate_adaptive_cost.
  destruct (h !! edge_key u v) as [r|] eqn:Hr; [|by left].
  case_decide; [right | by left]. split; [done|].
  intros ->. by rewrite lookup_empty in Hr.
Qed.

Lemma stats_inv_examine st cur v d md s' :
  stats_inv g start st → cur ∈ visited st →
  (v, d, md) ∈ get_neighbors g cur →
  s' = examine_edge (stats st) (cur, v) ∨
  s' = incr_history_influenced (examine_edge (stats st) (cur, v)) →
  stats_inv g start (set_stats st s').
Proof.
  intros [Hn He Hh Hx Hv Hq Hc Hl] Hcur Hedge Hs.
  assert (Hexp : ∀ a b, (a, b) ∈ explored_edges (stats st) ++ [(cur, v)] →
            a ∈ visited st ∧ ∃ d md, (b, d, md) ∈ get_neighbors g a).
  { intros a b Hab. apply elem_of_app in Hab as [Hab|Hab]; [by apply Hx|].
    apply list_elem_of_singleton in Hab as [= -> ->]. split; [done|].
    by exists d, md. }
  destruct Hs as [->| ->]; split; simpl; try done;
    rewrite ?length_app; simpl; lia.
Qed.

Lemma explore_neighbors_stats cur neighbors : ∀ st st',
  stats_inv g start st → cur ∈ visited st →
  (∀ x, x ∈ neighbors → x ∈ get_neighbors g cur) →
  explore_neighbors vt h cur neighbors st = Ok st' →
  stats_inv g start st' ∧ visited st' = visited st ∧
  (h = ∅ →
   history_influenced (stats st') = history_influenced (stats st)).
Proof.
  induction neighbors as [|[[v d] md] rest IH]; intros st st' Hi Hcur Hsub Hrun.
  - by injection Hrun as <-.
  - assert (Hrest : ∀ x, x ∈ rest → x ∈ get_neighbors g cur)
      by (intros x Hx; apply Hsub; by right).
    assert (Hedge : (v, d, md) ∈ get_neighbors g cur)
      by (apply Hsub; by left).
    cbn [explore_neighbors] in Hrun.
    set (st1 := set_stats st (examine_edge (stats st) (cur, v))) in *.
    assert (Hi1 : stats_inv g start st1).
    { apply (stats_inv_examine st cur v d md); try done. by left. }
    case_decide as Hvis.
    { destruct (IH st1 st' Hi1 Hcur Hrest Hrun) as (? & ? & ?). done. }
    pose proof (calculate_adaptive_cost_stats (stats st1) cur v d md) as Hs.
    destruct (calculate_adaptive_cost vt h (stats st1) cur v d md)
      as [edge_cost stats'] eqn:Hcost. simpl in Hs.
    set (st2 := set_stats st1 stats') in *.
    assert (Hi2 : stats_inv g start st2).
    { apply (stats_inv_examine st cur v d md); try done.
      destruct Hs as [->|[-> _]]; [by left | by right]. }
    assert (Hh2 : h = ∅ →
              history_influenced (stats st2) = history_influenced (stats st)).
    { intros Hempty. destruct Hs as [->|[_ ?]]; done. }
    destruct (getitem (costs st2) cur) as [cc| |]; [|done|done].
    cbn [mbind outcome_bind] in Hrun. unfold getitem in Hrun.
    destruct (costs st2 !! v) as [cv|] eqn:Hcv; [|done].
    cbn [mbind outcome_bind] in Hrun.
    destruct (cost_ltb (cost_add cc edge_cost) cv).
    + set (st3 := relax st2 cur v (cost_add cc edge_cost)) in *.
      assert (Hv_dom : v ∈ dom (costs st2)) by (apply elem_of_dom; by eexists).
      assert (Hi3 : stats_inv g start st3).
      { destruct Hi2 as [Hn He Hh Hx Hv Hq Hc Hl]. split; simpl; try done.
        - intros c n Hin. rewrite dom_insert_L.
          apply elem_of_cons in Hin as [[= -> ->] | Hin]; [set_solver|].
          apply Hq in Hin. set_solver.
        - rewrite dom_insert_L. simpl in Hc, Hv_dom. set_solver. }
      destruct (IH st3 st' Hi3 Hcur Hrest Hrun) as (? & ? & Hh3).
      split_and!; try done. intros Hempty. rewrite (Hh3 Hempty). by apply Hh2.
    + destruct (IH st2 st' Hi2 Hcur Hrest Hrun) as (? & ? & Hh3).
      split_and!; try done. intros Hempty. rewrite (Hh3 Hempty). by apply Hh2.
Qed.

Lemma search_loop_stats end_ : ∀ fuel st st',
  stats_inv g start st →
  search_loop g vt h fuel end_ st = Ok st' →
  stats_inv g start st' ∧ visited st ⊆ visited st' ∧
  (h = ∅ →
   history_influenced (stats st') = history_influenced (stats st)).
Proof.
  induction fuel as [|fuel IH]; intros st st' Hi Hrun.
  - simpl in Hrun. destruct (pq st) as [|x l] eqn:Hpq.
    + simpl in Hrun. by injection Hrun as <-.
    + simpl in Hrun. by destruct (extract_min x l) as [[c n] pq'].
  - cbn [search_loop] in Hrun.
    destruct (pq st) as [|x l] eqn:Hpq.
    { simpl in Hrun. by injection Hrun as <-. }
    cbn [heappop] in Hrun.
    destruct (extract_min x l) as [[c n] pq'] eqn:Hmin.
    pose proof (extract_min_perm _ _ _ _ Hmin) as Hperm.
    assert (Hn : (c, n) ∈ pq st) by (rewrite Hpq, <- Hperm; by left).
    assert (Hsub : ∀ e, e ∈ pq' → e ∈ pq st)
      by (intros e He; rewrite Hpq, <- Hperm; by right).
    set (st1 := set_pq st pq') in *.
    assert (Hi1 : stats_inv g start st1).
    { destruct Hi as [Hn' He Hh Hx Hv Hq Hc Hl]. split; simpl; try done.
      intros c' m Hin. by eapply Hq, Hsub. }
    case_decide as Hvis; [by apply (IH st1 st')|].
    simpl in Hvis.
    assert (Hnu : n ∈ universe g start).
    { rewrite <- (si_costs _ _ _ Hi). by eapply (si_pq _ _ _ Hi). }
    set (st2 := settle st1 n) in *.
    assert (Hi2 : stats_inv g start st2).
    { destruct Hi1 as [Hn' He Hh Hx Hv Hq Hc Hl]. split; simpl in *; try done.
      - rewrite size_union by set_solver. rewrite size_singleton. lia.
      - intros a b Hab. destruct (Hx _ _ Hab) as [? ?]. split; [set_solver|done].
      - set_solver. }
    case_decide as Hne.
    { injection Hrun as <-. split_and!; [done | simpl; set_solver | done]. }
    destruct (explore_neighbors vt h n (get_neighbors g n) st2)
      as [st3| |] eqn:Hexp; [|done|done].
    cbn [mbind outcome_bind] in Hrun.
    destruct (explore_neighbors_stats n (get_neighbors g n) st2 st3)
      as (Hi3 & Hv3 & Hh3); try done.
    { simpl. set_solver. }
    destruct (IH st3 st' Hi3 Hrun) as (Hi' & Hv' & Hh').
    split_and!; [done | rewrite Hv3 in Hv'; simpl in Hv'; set_solver |].
    intros Hempty. rewrite (Hh' Hempty). by apply Hh3.
Qed.

Lemma initial_state_stats : stats_inv g start (initial_state g start).
Proof.
  split; cbn [stats visited pq costs initial_state fresh_stats nodes_explored
                edges_examined history_influenced explored_edges path_length
                length].
  - by rewrite size_empty.
  - done.
  - lia.
  - intros u v Hin. by apply elem_of_nil in Hin.
  - set_solver.
  - intros c n Hin. apply list_elem_of_singleton in Hin as [= -> ->].
    rewrite dom_insert_L. set_solver.
  - rewrite dom_insert_L, dom_gset_to_gmap. done.
  - done.
Qed.
End Stats.

(** X4. The statistics that [find_optimal_path] returns: between 1 and
    [number of nodes + 1] nodes explored; [edges_examined] is the length of
    [explored_edges], all of them edges of the graph; [history_influenced]
    is between 0 and [edges_examined], and 0 for an empty history;
    [path_length] is the length of the returned path. *)
Theorem find_optimal_path_stats g vt h start end_ path tc stats :
  find_optimal_path g vt h start end_ = Ok (path, tc, stats) →
  (1 ≤ nodes_explored stats ≤ Z.of_nat (size (nodes g)) + 1)%Z ∧
  edges_examined stats = Z.of_nat (length (explored_edges stats)) ∧
  (∀ u v, (u, v) ∈ explored_edges stats →
     ∃ d md, (v, d, md) ∈ get_neighbors g u) ∧
  (0 ≤ history_influenced stats ≤ edges_examined stats)%Z ∧
  (h = ∅ → history_influenced stats = 0%Z) ∧
  path_length stats = Z.of_nat (length path).
Proof.
  intros Hrun.
  apply find_optimal_path_inv in Hrun
    as (st & p0 & tc0 & Hloop & Hrec & Hc & Hres).
  destruct (search_final_ok _ _ _ _ _ _ Hloop) as (Hp & _ & Hcases).
  destruct (search_loop_stats g vt h start end_ _ _ _
              (initial_state_stats g start) Hloop) as (Hi & _ & Hh).
  destruct Hi as [Hn He Hhi Hx Hv Hq Hcs Hpl].
  assert (Hs : start ∈ visited st).
  { destruct Hcases as [[Hend _]|(_ & _ & ? & _)]; [|done].
    destruct (pi_init _ _ _ _ _ Hp) as [?|[Hem _]]; [done|].
    rewrite Hem in Hend. set_solver. }
  assert (Hsize : 1 ≤ size (visited st) ≤ size (nodes g) + 1).
  { split.
    - destruct (decide (size (visited st) = 0)) as [Hz|]; [|lia].
      apply size_empty_iff in Hz. set_solver.
    - etrans; [apply (subseteq_size _ _ Hv)|]. unfold universe.
      rewrite size_union_alt, size_singleton.
      pose proof (subseteq_size (nodes g ∖ {[start]}) (nodes g)
                    ltac:(set_solver)). lia. }
  destruct Hres as [(Hne & -> & -> & ->)|(-> & -> & -> & ->)]; simpl;
    (split_and!; try done; try lia;
     try (intros u v Huv; by destruct (Hx _ _ Huv));
     try (intros Hempty; by rewrite (Hh Hempty))).
Qed.

(** ** The line graph and its histories *)




Lemma line_history_wf : history_wf (line_history mature_record young_record).
Proof.
  intros k r Hr.
  destruct (line_history_lookup _ _ _ _ Hr) as [-> | ->]; simpl; lra.
Qed.


(** ** Path reconstruction on any parent table *)

(** X5. [_reconstruct_path] on any parent table: [KeyError] when [end] is
    not a key; the empty path when [end] has no parent and differs from
    [start]; the path [[end]] when [end] has no parent and is [start]; and
    a non-empty result ends at [end] and lists, backwards from it, nodes each
    the parent of the next, up to a node without parent. *)
Theorem reconstruct_path_cases (parents : gmap Z (option Z)) start end_ :
  (parents !! end_ = None →
   reconstruct_path parents start end_ = Raise KeyError) ∧
  (parents !! end_ = Some None → end_ ≠ start →
   reconstruct_path parents start end_ = Ok []) ∧
  (parents !! end_ = Some None → end_ = start →
   reconstruct_path parents start end_ = Ok [end_]) ∧
  (∀ path, reconstruct_path parents start end_ = Ok path → path ≠ [] →
     last path = Some end_ ∧ parent_chain parents end_ (reverse path)).
Proof.
  split_and!.
  - intros Hp. unfold reconstruct_path. by rewrite (getitem_KeyError _ _ Hp).
  - intros Hp Hne. unfold reconstruct_path. rewrite (getitem_Ok _ _ _ Hp).
    cbn [mbind outcome_bind].
    rewrite bool_decide_eq_true_2 by done.
    by rewrite bool_decide_eq_true_2 by done.
  - intros Hp ->. unfold reconstruct_path. rewrite (getitem_Ok _ _ _ Hp).
    cbn [mbind outcome_bind].
    rewrite bool_decide_eq_true_2 by done.
    rewrite bool_decide_eq_false_2 by (intros Hne; by apply Hne).
    cbn [andb follow_parents]. rewrite (getitem_Ok _ _ _ Hp).
    cbn [mbind outcome_bind app]. by rewrite follow_parents_None.
  - intros path Hrun Hne.
    destruct (reconstruct_path_chain start parents end_ path Hrun Hne)
      as [Hchain _].
    split; [|done].
    assert (Hhead : head (reverse path) = Some end_) by (by destruct Hchain).
    by rewrite head_reverse in Hhead.
Qed.

(** ** Instances of the statements above *)

Lemma line_history_01 r01 r12 :
  line_history r01 r12 !! edge_key 0 1 = Some r01.
Proof.
  unfold line_history.
  rewrite lookup_insert_ne by (pose proof line_keys_ne; congruence).
  by rewrite lookup_insert_eq.
Qed.

Lemma find_optimal_path_sound_witness :
  ∃ c, walk line_graph "boda" ∅ 0 2 [0; 1; 2]%Z c ∧ NoDup [0; 1; 2]%Z.
Proof.
  destruct (line_graph_search "boda" ∅) as [s Hs].
  destruct (find_optimal_path_sound line_graph "boda" ∅ 0 2 _ _ _ Hs
              ltac:(done)) as (c & _ & Hw & Hnd & _).
  by exists c.
Defined.



Lemma find_optimal_path_stats_witness :
  ∃ s, (1 ≤ nodes_explored s ≤ Z.of_nat (size (nodes line_graph)) + 1)%Z ∧
       history_influenced s = 0%Z ∧ path_length s = 3%Z.
Proof.
  destruct (line_graph_search "boda" ∅) as [s Hs]. exists s.
  destruct (find_optimal_path_stats line_graph "boda" ∅ 0 2 _ _ _ Hs)
    as (Hn & _ & _ & _ & Hh & Hl).
  split; [exact Hn|]. split; [by apply Hh | exact Hl].
Defined.

Lemma reconstruct_path_cases_witness :
  reconstruct_path (∅ : gmap Z (option Z)) 0 5 = Raise KeyError ∧
  reconstruct_path ({[0%Z := None]} : gmap Z (option Z)) 0 0 = Ok [0%Z].
Proof.
  split.
  - apply (reconstruct_path_cases ∅ 0 5). apply lookup_empty.
  - apply (reconstruct_path_cases {[0%Z := None]} 0 0);
      [apply lookup_singleton_eq | reflexivity].
Defined.

Lemma adaptive_cost_history_bounds_witness :
  (static_cost "car" 10 line_metadata
   <= (calculate_adaptive_cost "car"
         (line_history mature_record young_record) fresh_stats 0 1 10 line_metadata).1
   <= static_cost "car" 10 line_metadata
      * (1 + HISTORICAL_WEIGHT
             * (average_delay mature_record + 2 * failure_rate mature_record)))%R.
Proof.
  apply (adaptive_cost_history_bounds "car"
           (line_history mature_record young_record) fresh_stats 0 1 10 line_metadata
           mature_record); simpl; try lra.
  - apply line_history_01.
  - unfold MIN_SAMPLES. lia.
Defined.

Lemma adaptive_cost_monotone_witness :
  ((calculate_adaptive_cost "car"
      (line_history mature_record young_record) fresh_stats 0 1 10 line_metadata).1
   <= (calculate_adaptive_cost "car"
         (line_history worn_record young_record) fresh_stats 0 1 10 line_metadata).1)%R.
Proof.
  apply (adaptive_cost_monotone "car" _ _ fresh_stats fresh_stats 0 1 10 line_metadata
           mature_record worn_record); simpl; try lra.
  - apply line_history_01.
  - apply line_history_01.
  - unfold MIN_SAMPLES. lia.
Defined.

Lemma static_cost_ordering_witness :
  (static_cost "truck" 10 line_metadata <= static_cost "truck" 10 rough_metadata)%R ∧
  (static_cost "boda" 10 rough_metadata <= static_cost "truck" 10 rough_metadata)%R.
Proof.
  assert (Hd : (0 <= 10)%R) by lra.
  assert (Ht : (0 <= default 1.0 (md_traffic_factor rough_metadata))%R)
    by (simpl; lra).
  assert (Hq : (default 1.0 (md_quality rough_metadata)
                <= default 1.0 (md_quality line_metadata))%R) by (simpl; lra).
  destruct (static_cost_ordering "truck" 10 rough_metadata line_metadata
              Hd Ht eq_refl Hq) as (H1 & H2 & _).
  by split.
Defined.

Lemma feedback_counts_witness :
  ∃ r',
    line_history (observe new_record (spec_delay 30 20) false)
                 (observe new_record (spec_delay 30 20) false)
      !! edge_key 0 1 = Some r' ∧
    usage_count r' = 1%Z ∧ total_failures r' = 1%Z.
Proof.
  destruct (feedback_counts ∅ [0; 1; 2]%Z 30 20 false _ (edge_key 0 1)
              (line_feedback_first 30 20 false)) as (_ & Hpos & _).
  destruct Hpos as (r' & Hr' & Hc & Hf); [by vm_compute|].
  exists r'. split; [exact Hr'|]. rewrite Hc, Hf. by vm_compute.
Defined.


Lemma successful_feedback_failure_rate_witness :
  ∃ h' r',
    record_route_feedback (line_history mature_record young_record)
      [0; 1; 2]%Z 30 20 true = Ok h' ∧
    h' !! edge_key 0 1 = Some r' ∧
    (failure_rate r' < 0.25)%R.
Proof.
  destruct (successful_feedback_failure_rate
              (line_history mature_record young_record) [0; 1; 2]%Z 30 20 0 1)
    as (h' & r' & Hrun & Hr' & Hm).
  - apply line_history_ok; [apply mature_record_ok | apply young_record_ok].
  - simpl. by left.
  - exists h', r'. split_and!; [exact Hrun | exact Hr' |].
    rewrite line_history_01 in Hm. destruct Hm as (_ & _ & Hlt).
    simpl in Hlt. apply Hlt. lra.
Defined.

Lemma feedback_history_bounded_witness :
  ∃ h, run_feedback [([0; 1; 2]%Z, 30%R, 20%R, true);
                     ([0; 1]%Z, 10%R, 20%R, false)] ∅ = Ok h ∧
    ∀ k r, h !! k = Some r → (0 <= average_delay r <= 0.5)%R.
Proof.
  destruct (feedback_history_bounded 0.5
              [([0; 1; 2]%Z, 30%R, 20%R, true); ([0; 1]%Z, 10%R, 20%R, false)])
    as (h & Hrun & _ & _ & Hb).
  - intros path a e s Hin. unfold spec_delay.
    apply elem_of_cons in Hin as [[= -> -> -> ->]|Hin].
    + rewrite decide_True by lra. apply Rmax_lub; lra.
    + apply list_elem_of_singleton in Hin as [= -> -> -> ->].
      rewrite decide_True by lra. apply Rmax_lub; lra.
  - by exists h.
Defined.

